(** * Change Management FAQ chatbot: knowledge extraction and matching

    A shallow embedding of the core of [server.js]: the pattern builder
    ([buildPatternsFromQuestion]), the two document segmenters
    ([parseStructuredQA], [parseUnstructured]), the loader
    ([loadPdfKnowledge] and the reload handler) and the in-browser matcher
    ([normalize], [scoreMatch], [getAnswer]).

    JavaScript strings are sequences of UTF-16 code units; they are modelled
    as lists of code units ([N]).  The regular expressions of the source are
    written as terms of a small regex syntax and run by a backtracking
    matcher that follows the priorities of the ECMAScript matcher (greedy
    and lazy quantifiers, alternation left to right, lookahead, captures). *)

From Stdlib Require Import String Ascii.
From Stdlib Require Import List NArith ZArith QArith Lia Lqa Bool Arith.
Import ListNotations.

Local Open Scope nat_scope.

(* ================================================================== *)
(** ** JavaScript strings *)

Module JsString.

Definition jsstring := list N.

(** A string literal of the source, one code unit per (ASCII) character. *)
Definition str (s : string) : jsstring :=
  map N_of_ascii (list_ascii_of_string s).

Definition eqb (s t : jsstring) : bool :=
  if list_eq_dec N.eq_dec s t then true else false.

(** Code units used by the source. *)
Definition LF : N := 10.
Definition SP : N := 32.
Definition ELLIPSIS : N := 8230.          (* "…" *)

(** [\s] of a regular expression, and the characters [trim] removes:
    WhiteSpace and LineTerminator of ECMAScript. *)
Definition is_space (c : N) : bool :=
  ((9 <=? c) && (c <=? 13) || (c =? 32) || (c =? 160) || (c =? 5760)
   || (8192 <=? c) && (c <=? 8202) || (c =? 8232) || (c =? 8233)
   || (c =? 8239) || (c =? 8287) || (c =? 12288) || (c =? 65279))%N.

(** LineTerminator: the characters [.] does not match. *)
Definition is_line_terminator (c : N) : bool :=
  ((c =? 10) || (c =? 13) || (c =? 8232) || (c =? 8233))%N.

(** [a-z0-9] *)
Definition is_lower_alnum (c : N) : bool :=
  ((97 <=? c) && (c <=? 122) || (48 <=? c) && (c <=? 57))%N.

(** [String.prototype.toLowerCase], code unit by code unit.  ASCII capitals
    go to their small letters.  Two code units outside ASCII have a
    lower-case form inside it: U+0130 (capital I with dot, to "i" followed
    by U+0307) and U+212A (Kelvin sign, to "k").  Every other code unit
    outside ASCII goes to code units outside ASCII, which the source
    always replaces by a space right after; they are left as they are. *)
Definition lower_unit (c : N) : jsstring :=
  if ((65 <=? c) && (c <=? 90))%N then [(c + 32)%N]
  else if (c =? 304)%N then [105%N; 775%N]
  else if (c =? 8490)%N then [107%N]
  else [c].

Definition toLowerCase (s : jsstring) : jsstring := flat_map lower_unit s.

(** [String.prototype.trim] *)
Fixpoint trimStart (s : jsstring) : jsstring :=
  match s with
  | c :: r => if is_space c then trimStart r else s
  | [] => []
  end.

Definition trimEnd (s : jsstring) : jsstring := rev (trimStart (rev s)).

Definition trim (s : jsstring) : jsstring := trimEnd (trimStart s).

(** [s.slice(0, n)] *)
Definition slice0 (n : nat) (s : jsstring) : jsstring := firstn n s.

(** [String.prototype.includes]: [t] occurs in [s]. *)
Fixpoint starts_with (t s : jsstring) : bool :=
  match t, s with
  | [], _ => true
  | a :: t', b :: s' => (a =? b)%N && starts_with t' s'
  | _ :: _, [] => false
  end.

Fixpoint includes (s t : jsstring) : bool :=
  starts_with t s ||
  match s with
  | [] => false
  | _ :: s' => includes s' t
  end.

(** [s.replace(/[^a-z0-9\s]/g, " ")] *)
Definition replace_non_alnum (s : jsstring) : jsstring :=
  map (fun c => if is_lower_alnum c || is_space c then c else SP) s.

(** [s.replace(/\s+/g, " ")]: every maximal run of white space becomes one
    space.  [insep] tells that the previous code unit was white space. *)
Fixpoint collapse_aux (insep : bool) (s : jsstring) : jsstring :=
  match s with
  | [] => []
  | c :: r =>
      if is_space c
      then if insep then collapse_aux true r else SP :: collapse_aux true r
      else c :: collapse_aux false r
  end.

Definition collapse_spaces (s : jsstring) : jsstring := collapse_aux false s.

(** [s.split(/\s+/)]: the pieces between maximal runs of white space; a
    leading or trailing run leaves an empty piece, and the empty string
    splits into one empty piece. *)
Fixpoint split_ws_aux (cur : jsstring) (insep : bool) (s : jsstring)
  : list jsstring :=
  match s with
  | [] => [rev cur]
  | c :: r =>
      if is_space c
      then if insep then split_ws_aux cur true r
           else rev cur :: split_ws_aux [] true r
      else split_ws_aux (c :: cur) false r
  end.

Definition split_ws (s : jsstring) : list jsstring := split_ws_aux [] false s.

(** [s.split(" ")]: the pieces between single spaces. *)
Fixpoint split_sp_aux (cur : jsstring) (s : jsstring) : list jsstring :=
  match s with
  | [] => [rev cur]
  | c :: r =>
      if (c =? SP)%N then rev cur :: split_sp_aux [] r
      else split_sp_aux (c :: cur) r
  end.

Definition split_sp (s : jsstring) : list jsstring := split_sp_aux [] s.

(** [s.split(/\n{2,}/)]: the pieces between maximal runs of two or more
    line feeds. *)
Fixpoint split_nn_aux (cur : jsstring) (insep : bool) (s : jsstring)
  : list jsstring :=
  match s with
  | [] => [rev cur]
  | c :: r =>
      if (c =? LF)%N
      then if insep then split_nn_aux cur true r
           else match r with
                | d :: _ =>
                    if (d =? LF)%N then rev cur :: split_nn_aux [] true r
                    else split_nn_aux (c :: cur) false r
                | [] => split_nn_aux (c :: cur) false r
                end
      else split_nn_aux (c :: cur) false r
  end.

Definition split_nn (s : jsstring) : list jsstring := split_nn_aux [] false s.

(** [.filter(Boolean)] on an array of strings: the empty string is the only
    falsy one. *)
Definition nonempty (s : jsstring) : bool :=
  match s with [] => false | _ :: _ => true end.

Definition filter_Boolean (l : list jsstring) : list jsstring :=
  filter nonempty l.

(** An array is truthy as a length when it has an element. *)
Definition nonempty_list {A : Type} (l : list A) : bool :=
  match l with [] => false | _ :: _ => true end.

(** [[...new Set(w)]]: the distinct elements in order of first occurrence. *)
Fixpoint dedup_aux (seen : list jsstring) (l : list jsstring)
  : list jsstring :=
  match l with
  | [] => []
  | x :: r =>
      if existsb (eqb x) seen then dedup_aux seen r
      else x :: dedup_aux (x :: seen) r
  end.

Definition dedup (l : list jsstring) : list jsstring := dedup_aux [] l.

End JsString.
Import JsString.

(* ================================================================== *)
(** ** Regular expressions *)

Module Regex.

(** The syntax the regular expressions of the source need.  A character
    class or literal is a predicate on code units. *)
Inductive regex : Type :=
| Empty
| Chr (p : N -> bool)
| Seq (r1 r2 : regex)
| Alt (r1 r2 : regex)
| Star (greedy : bool) (r : regex)
| Group (n : nat) (r : regex)
| Bol
| Eol
| Lookahead (r : regex).

(** [r+] and [r+?] *)
Definition Plus (greedy : bool) (r : regex) : regex := Seq r (Star greedy r).

(** The matcher's state: the index reached, the input from there on, and
    the captures (latest first). *)
Record mstate : Type := MState {
  pos : nat;
  rest : jsstring;
  caps : list (nat * jsstring)
}.

Definition cont := mstate -> option mstate.

Definition or_else (a b : option mstate) : option mstate :=
  match a with
  | Some x => Some x
  | None => b
  end.

Definition set_cap (n : nat) (v : jsstring) (st : mstate) : mstate :=
  MState (pos st) (rest st) ((n, v) :: caps st).

Fixpoint lookup_cap (n : nat) (l : list (nat * jsstring)) : option jsstring :=
  match l with
  | [] => None
  | (i, v) :: l' => if i =? n then Some v else lookup_cap n l'
  end.

Definition get_cap (n : nat) (st : mstate) : option jsstring :=
  lookup_cap n (caps st).

(** One quantifier loop.  An iteration that consumes nothing is rejected,
    as in ECMAScript, so the remaining input bounds the number of
    iterations. *)
Fixpoint star_loop (body : mstate -> cont -> option mstate) (greedy : bool)
         (k : cont) (fuel : nat) (st : mstate) : option mstate :=
  match fuel with
  | 0 => k st
  | S f =>
      let iter :=
        body st (fun st' =>
                   if pos st <? pos st'
                   then star_loop body greedy k f st'
                   else None) in
      if greedy then or_else iter (k st) else or_else (k st) iter
  end.

(** The backtracking matcher, in continuation-passing style: [m r st k]
    matches [r] at [st] and hands the state reached to [k]; when [k] fails
    the next alternative in priority order is tried. *)
Fixpoint m (r : regex) (st : mstate) (k : cont) : option mstate :=
  match r with
  | Empty => k st
  | Chr p =>
      match rest st with
      | c :: s => if p c then k (MState (S (pos st)) s (caps st)) else None
      | [] => None
      end
  | Seq r1 r2 => m r1 st (fun st' => m r2 st' k)
  | Alt r1 r2 => or_else (m r1 st k) (m r2 st k)
  | Star g r1 => star_loop (m r1) g k (length (rest st)) st
  | Group n r1 =>
      m r1 st (fun st' =>
                 k (set_cap n (firstn (pos st' - pos st) (rest st)) st'))
  | Bol => if pos st =? 0 then k st else None
  | Eol => match rest st with [] => k st | _ :: _ => None end
  | Lookahead r1 =>
      match m r1 st Some with
      | Some st' => k (MState (pos st) (rest st) (caps st'))
      | None => None
      end
  end.

(** The first match of [r] at or after the index [p], where [s] is the
    input from [p] on: the start index and the final state. *)
Fixpoint search (r : regex) (p : nat) (s : jsstring)
  : option (nat * mstate) :=
  match m r (MState p s []) Some with
  | Some st => Some (p, st)
  | None =>
      match s with
      | [] => None
      | _ :: s' => search r (S p) s'
      end
  end.

(** Character classes and literals. *)
Definition lit (c : N) : regex := Chr (N.eqb c).

(** A letter under the [i] flag: both cases of an ASCII letter (no code
    unit outside ASCII has "Q" or "A" as its upper-case form). *)
Definition letter_i (upper c : N) : bool :=
  ((c =? upper) || (c =? upper + 32))%N.

Definition lit_i (upper : N) : regex := Chr (letter_i upper).

Definition ws : regex := Chr is_space.                           (* \s     *)
Definition dot : regex := Chr (fun c => negb (is_line_terminator c)). (* . *)
Definition any : regex := Chr (fun _ => true).                   (* [\s\S] *)

End Regex.
Import Regex.

(* ================================================================== *)
(** ** JavaScript numbers

    The scores are quotients of two small natural numbers, compared with
    each other and with 0.35.  They are modelled as rationals, together
    with NaN (the value of 0/0).  Distinct quotients of array lengths are
    distinct doubles and keep their order, and 7/20 rounds to the double
    the literal 0.35 denotes, so the comparisons of the source agree with
    the comparisons of the rationals. *)

Module JsNumber.

Inductive jsnum : Type :=
| NaN
| Num (q : Q).

(** [hits / len] for array lengths [hits <= len]: a zero [len] makes it
    0/0. *)
Definition div_len (hits len : nat) : jsnum :=
  match len with
  | 0 => NaN
  | S _ => Num (Z.of_nat hits # Pos.of_nat len)
  end.

(** [a > b]: false as soon as one side is NaN. *)
Definition gt (a b : jsnum) : bool :=
  match a, b with
  | Num x, Num y => if Qlt_le_dec y x then true else false
  | _, _ => false
  end.

(** [Math.max(a, b)]: NaN as soon as one argument is NaN. *)
Definition max (a b : jsnum) : jsnum :=
  match a, b with
  | Num x, Num y => if Qlt_le_dec x y then Num y else Num x
  | _, _ => NaN
  end.

(** The value is a number between 0 and 1. *)
Definition in_unit_interval (a : jsnum) : Prop :=
  match a with
  | Num x => (0 <= x /\ x <= 1)%Q
  | NaN => False
  end.

End JsNumber.
Import JsNumber.

(* ================================================================== *)
(** ** The server: pattern builder, segmenters and loader *)

Declare Scope regex_scope.
Delimit Scope regex_scope with re.
Notation "r1 ;; r2" := (Seq r1 r2)
  (at level 61, right associativity) : regex_scope.

Definition STOPWORDS : list jsstring :=
  map str
    ["the";"and";"for";"with";"that";"this";"from";"your";"have";"will";
     "into";"about";"after";"before";"when";"what";"how";"why";"who";"are";
     "was";"were";"is";"a";"an";"to";"of";"in";"on";"at";"by";"as";"it";
     "or";"be";"we";"you";"our";"their";"there";"any";"can";"do"]%string.

Definition is_stopword (x : jsstring) : bool := existsb (eqb x) STOPWORDS.

(** [buildPatternsFromQuestion(q)] *)
Definition keywords (q : jsstring) : list jsstring :=
  filter (fun x => (3 <? length x) && negb (is_stopword x))
         (split_ws (replace_non_alnum (toLowerCase q))).

Definition buildPatternsFromQuestion (q : jsstring) : list jsstring :=
  [q] ++ firstn 8 (dedup (keywords q)).

(** A knowledge-base item [{ q, a, patterns }]. *)
Record entry : Type := Entry {
  q : jsstring;
  a : jsstring;
  patterns : list jsstring
}.

Definition COLON : N := 58.
Definition UPPER_Q : N := 81.
Definition UPPER_A : N := 65.

(** [/(?:^|\n)\s*Q:\s*(.+?)\s*\nA:\s*([\s\S]*?)(?=\nQ:|$)/gi] *)
Definition qa_regex : regex :=
  (Alt Bol (lit LF) ;; Star true ws ;; lit_i UPPER_Q ;; lit COLON ;;
   Star true ws ;; Group 1 (Plus false dot) ;;
   Star true ws ;; lit LF ;; lit_i UPPER_A ;; lit COLON ;;
   Star true ws ;; Group 2 (Star false any) ;;
   Lookahead (Alt (lit LF ;; lit_i UPPER_Q ;; lit COLON) Eol))%re.

(** [m[n]] of a match in which group [n] took part (both groups of the
    question/answer regex always do, [qa_regex_groups] below). *)
Definition group (n : nat) (st : mstate) : jsstring :=
  match get_cap n st with
  | Some v => v
  | None => []
  end.

(** The loop [while ((m = regex.exec(text)) !== null)] of
    [parseStructuredQA]: [p] is [regex.lastIndex] and [s] the text from
    there on.  A round that leaves [lastIndex] where it was would repeat for
    ever; the loop is cut after [fuel] rounds and answers [None] then. *)
Fixpoint qa_loop (fuel : nat) (p : nat) (s : jsstring)
  : option (list entry) :=
  match fuel with
  | 0 => None
  | S f =>
      match search qa_regex p s with
      | None => Some []
      | Some (_, st) =>
          let q := trim (group 1 st) in
          let a := trim (group 2 st) in
          match qa_loop f (pos st) (rest st) with
          | Some l => Some (Entry q a (buildPatternsFromQuestion q) :: l)
          | None => None
          end
      end
  end.

(** [parseStructuredQA(text)].  Each match takes at least the two code
    units of its question marker, so one round more than the text is long
    is enough ([qa_loop_total] below): the second branch is never taken. *)
Definition parseStructuredQA (text : jsstring) : list entry :=
  match qa_loop (S (length text)) 0 text with
  | Some l => l
  | None => []
  end.

(** [[\.\?!]] *)
Definition is_terminator (c : N) : bool :=
  ((c =? 46) || (c =? 63) || (c =? 33))%N.

(** [/(.+?[\.\?!])\s/] *)
Definition first_regex : regex :=
  (Group 1 (Plus false dot ;; Chr is_terminator) ;; ws)%re.

(** [(p.match(/(.+?[\.\?!])\s/) || [null,p])[1]] *)
Definition first_sentence (p : jsstring) : jsstring :=
  match search first_regex 0 p with
  | Some (_, st) => group 1 st
  | None => p
  end.

(** [first.length > 120 ? first.slice(0,117)+"…" : first] *)
Definition label_of (p : jsstring) : jsstring :=
  let first := first_sentence p in
  if 120 <? length first then slice0 117 first ++ [ELLIPSIS] else first.

(** The paragraphs [parseUnstructured] keeps. *)
Definition paragraphs (text : jsstring) : list jsstring :=
  filter_Boolean (map trim (split_nn text)).

(** [parseUnstructured(text)] *)
Definition parseUnstructured (text : jsstring) : list entry :=
  map (fun p =>
         let q := label_of p in
         Entry q p (buildPatternsFromQuestion q))
      (paragraphs text).

(** What [loadPdfKnowledge] meets on disk: no file, a file that cannot be
    read or parsed (an exception in the [try] block), or extracted data
    whose [text] may be missing. *)
Inductive pdf_source : Type :=
| NoFile
| Unreadable
| Extracted (text : option jsstring).

(** [(data.text || "").trim()] *)
Definition extracted_text (t : option jsstring) : jsstring :=
  trim (match t with Some s => s | None => [] end).

(** [loadPdfKnowledge()] *)
Definition loadPdfKnowledge (src : pdf_source) : list entry :=
  match src with
  | NoFile => []
  | Unreadable => []
  | Extracted t =>
      let text := extracted_text t in
      if negb (nonempty text) then []
      else
        let structured := parseStructuredQA text in
        if nonempty_list structured then structured
        else firstn 300 (parseUnstructured text)
  end.

(** The handler of [fs.watchFile] (and the initial load):
    [KB = await loadPdfKnowledge()], as a step on the state [KB]. *)
Definition reload (src : pdf_source) (KB : list entry) : list entry :=
  loadPdfKnowledge src.

(* ================================================================== *)
(** ** The client: normalisation, scoring and answer selection *)

(** [normalize(str)] *)
Definition normalize (s : jsstring) : jsstring :=
  trim (collapse_spaces (replace_non_alnum (toLowerCase s))).

(** [normalize(p).split(" ").filter(Boolean)] *)
Definition words_of (p : jsstring) : list jsstring :=
  filter_Boolean (split_sp (normalize p)).

(** [" " + normalize(user) + " "] *)
Definition padded (user : jsstring) : jsstring :=
  [SP] ++ normalize user ++ [SP].

(** [u.includes(" " + w + " ")] *)
Definition is_hit (u w : jsstring) : bool :=
  includes u ([SP] ++ w ++ [SP]).

(** [words.filter(w => u.includes(" " + w + " ")).length] *)
Definition hits (u : jsstring) (words : list jsstring) : nat :=
  length (filter (is_hit u) words).

(** [hits / words.length] for one pattern *)
Definition coverage (u p : jsstring) : jsnum :=
  let words := words_of p in
  div_len (hits u words) (length words).

(** The loop of [scoreMatch] from the value [best] on. *)
Fixpoint score_loop (u : jsstring) (best : jsnum) (patterns : list jsstring)
  : jsnum :=
  match patterns with
  | [] => best
  | p :: ps => score_loop u (JsNumber.max best (coverage u p)) ps
  end.

(** [scoreMatch(user, patterns)] *)
Definition scoreMatch (user : jsstring) (patterns : list jsstring) : jsnum :=
  score_loop (padded user) (Num 0) patterns.

(** The variable [best] of [getAnswer]: [{ i, s }]. *)
Record best : Type := Best {
  best_i : Z;
  best_s : jsnum
}.

(** The loop of [getAnswer] from index [i] on, [faq] being [FAQ] from
    there. *)
Fixpoint best_loop (txt : jsstring) (i : nat) (faq : list entry) (b : best)
  : best :=
  match faq with
  | [] => b
  | e :: faq' =>
      let s := scoreMatch txt (patterns e) in
      best_loop txt (S i) faq' (if gt s (best_s b) then Best (Z.of_nat i) s else b)
  end.

(** The first half of [getAnswer]: [best] after the loop, from
    [{ i:-1, s:0 }]. *)
Definition bestMatch (txt : jsstring) (FAQ : list entry) : best :=
  best_loop txt 0 FAQ (Best (-1) (Num 0)).

(** [FAQ[i]]: [undefined] outside the array. *)
Definition item_at (FAQ : list entry) (i : Z) : option entry :=
  if (i <? 0)%Z then None else nth_error FAQ (Z.to_nat i).

Definition THRESHOLD : Q := 35 # 100.

(** What [getAnswer] gives back: the answer of the matched item with the
    score its [meta] reports, the request to rephrase, or the TypeError of
    reading [.a] of [undefined]. *)
Inductive reply : Type :=
| Matched (text : jsstring) (s : jsnum)
| LowConfidence
| TypeError.

(** [getAnswer(txt)] *)
Definition getAnswer (txt : jsstring) (FAQ : list entry) : reply :=
  let b := bestMatch txt FAQ in
  if gt (best_s b) (Num THRESHOLD) then
    match item_at FAQ (best_i b) with
    | Some item => Matched (a item) (best_s b)
    | None => TypeError
    end
  else LowConfidence.

(* ================================================================== *)
(** ** Vocabulary of the statements *)

(** A string without line terminator ("single-line"). *)
Definition single_line (s : jsstring) : bool :=
  forallb (fun c => negb (is_line_terminator c)) s.

(** A string with at least one code unit that is not white space. *)
Definition non_blank (s : jsstring) : bool :=
  existsb (fun c => negb (is_space c)) s.

(** A marker [letter ":"], in either case, occurs in [s]. *)
Fixpoint has_marker (upper : N) (s : jsstring) : bool :=
  match s with
  | c :: ((d :: _) as r) =>
      letter_i upper c && (d =? COLON)%N || has_marker upper r
  | _ => false
  end.

(** No question marker and no answer marker occurs in [s]. *)
Definition no_markers (s : jsstring) : bool :=
  negb (has_marker UPPER_Q s) && negb (has_marker UPPER_A s).

(** The markers as the question/answer regex looks for them.
    [marker_here]: the text starts with the letter, in either case, and a
    colon.  [marker_after_space]: the same after white space, as in
    [\s*Q:].  [after_lf f]: [f] holds right after some line feed. *)
Definition marker_here (upper : N) (s : jsstring) : bool :=
  match s with
  | c :: d :: _ => letter_i upper c && (d =? COLON)%N
  | _ => false
  end.

Fixpoint marker_after_space (upper : N) (s : jsstring) : bool :=
  marker_here upper s ||
  match s with
  | c :: r => is_space c && marker_after_space upper r
  | [] => false
  end.

Fixpoint after_lf (f : jsstring -> bool) (s : jsstring) : bool :=
  match s with
  | c :: r => (c =? LF)%N && f r || after_lf f r
  | [] => false
  end.

(** A question marker begins a line of [s], after optional white space:
    [(?:^|\n)\s*Q:]. *)
Definition question_line (s : jsstring) : bool :=
  marker_after_space UPPER_Q s || after_lf (marker_after_space UPPER_Q) s.

(** An answer marker begins a line of [s], right after a line feed:
    [\nA:]. *)
Definition answer_line (s : jsstring) : bool :=
  after_lf (marker_here UPPER_A) s.

(** A synthetic block ["Q: " + q + "\nA: " + a], and the document made of
    the blocks of [qas], one per line pair, joined by line feeds. *)
Definition qa_block (qa : jsstring * jsstring) : jsstring :=
  str "Q: " ++ fst qa ++ [LF] ++ str "A: " ++ snd qa.

Fixpoint join_lines (l : list jsstring) : jsstring :=
  match l with
  | [] => []
  | [x] => x
  | x :: r => x ++ [LF] ++ join_lines r
  end.

Definition build_doc (qas : list (jsstring * jsstring)) : jsstring :=
  join_lines (map qa_block qas).

(** The entry a block is expected to give. *)
Definition entry_of (qa : jsstring * jsstring) : entry :=
  Entry (trim (fst qa)) (trim (snd qa))
        (buildPatternsFromQuestion (trim (fst qa))).

(** A reload that fails: no file, an exception, or no text. *)
Definition failed (src : pdf_source) : bool :=
  match src with
  | NoFile | Unreadable => true
  | Extracted t => negb (nonempty (extracted_text t))
  end.

(** [st'] is reached from [st] by consuming input and adding captures. *)
Definition extends (st st' : mstate) : Prop :=
  exists u, rest st = u ++ rest st' /\ pos st' = pos st + length u /\
            exists l, caps st' = l ++ caps st.

(** What a greedy and a lazy loop over one character class amount to. *)
Fixpoint greedy_chr (P : N -> bool) (k : cont) (p : nat) (s : jsstring)
         (cs : list (nat * jsstring)) : option mstate :=
  match s with
  | c :: s' =>
      if P c then or_else (greedy_chr P k (S p) s' cs) (k (MState p s cs))
      else k (MState p s cs)
  | [] => k (MState p [] cs)
  end.

Fixpoint lazy_chr (P : N -> bool) (k : cont) (p : nat) (s : jsstring)
         (cs : list (nat * jsstring)) : option mstate :=
  match s with
  | c :: s' =>
      or_else (k (MState p s cs))
              (if P c then lazy_chr P k (S p) s' cs else None)
  | [] => k (MState p [] cs)
  end.

(** The question/answer regex from several places on: the lookahead, what
    follows the answer marker, what follows the first group (with and
    without its white space), what follows the question marker, and what
    follows the start of the line. *)
Definition next_question : regex :=
  Lookahead (Alt (lit LF ;; lit_i UPPER_Q ;; lit COLON) Eol)%re.

Definition qa_tail : regex :=
  (Star true ws ;; Group 2 (Star false any) ;; next_question)%re.

Definition qa_mid_k : regex :=
  (lit LF ;; lit_i UPPER_A ;; lit COLON ;; qa_tail)%re.

Definition qa_mid : regex := (Star true ws ;; qa_mid_k)%re.

Definition qa_after_q : regex :=
  (Star true ws ;; Group 1 (Plus false dot) ;; qa_mid)%re.

Definition qa_from_marker : regex :=
  (Star true ws ;; lit_i UPPER_Q ;; lit COLON ;; qa_after_q)%re.

(** The class does not match at the head of [t]. *)
Definition stops (P : N -> bool) (t : jsstring) : Prop :=
  match t with
  | [] => True
  | c :: _ => P c = false
  end.

(** [s] is white space only; [s] starts, ends, with a code unit that is
    not white space. *)
Definition all_space (s : jsstring) : Prop :=
  Forall (fun c => is_space c = true) s.

Definition starts_nonspace (s : jsstring) : Prop :=
  exists c r, s = c :: r /\ is_space c = false.

Definition ends_nonspace (s : jsstring) : Prop :=
  exists l c, s = l ++ [c] /\ is_space c = false.

(** What follows a block: the end of the text or the next question
    marker. *)
Definition boundary (t : jsstring) : Prop :=
  t = [] \/ exists c s, t = LF :: c :: COLON :: s /\ letter_i UPPER_Q c = true.

(** The blocks of [qas], each after a line feed. *)
Definition tail_doc (qas : list (jsstring * jsstring)) : jsstring :=
  flat_map (fun qa => LF :: qa_block qa) qas.

(** The synthetic pairs of the round trip: a question on one line, and an
    answer on one line that is not blank. *)
Definition valid_pair (qa : jsstring * jsstring) : bool :=
  single_line (fst qa) && single_line (snd qa) && non_blank (snd qa).

(** The pairs as the round trip is claimed for: not empty, on one line,
    without marker. *)
Definition claimed_pair (qa : jsstring * jsstring) : bool :=
  nonempty (fst qa) && nonempty (snd qa) &&
  single_line (fst qa) && single_line (snd qa) &&
  no_markers (fst qa) && no_markers (snd qa).

(** Sample data of the examples. *)
Definition sample_paragraphs : jsstring :=
  concat (repeat (str "data: ok." ++ [LF; LF]) 301).

Definition sample_kb : list entry :=
  [Entry (str "What is a CAB?") (str "A Change Advisory Board reviews RFCs.")
         [str "What is a CAB?"];
   Entry (str "What is lead time?")
         (str "Minimum notice required before a change window.")
         [str "What is lead time?"; str "lead"; str "time"]].

(* ================================================================== *)
(** ** Vocabulary of the further properties *)

(** A code unit of a normalized string: [a-z0-9] or the space. *)
Definition is_norm_char (c : N) : bool := is_lower_alnum c || (c =? SP)%N.

(** No two spaces in a row. *)
Fixpoint no_double_sp (s : jsstring) : bool :=
  match s with
  | c :: ((d :: _) as r) => negb ((c =? SP)%N && (d =? SP)%N) && no_double_sp r
  | _ => true
  end.

(** No two line feeds in a row. *)
Fixpoint no_double_lf (s : jsstring) : bool :=
  match s with
  | c :: ((d :: _) as r) => negb ((c =? LF)%N && (d =? LF)%N) && no_double_lf r
  | _ => true
  end.

(** The shape of a normalized string: code units of [a-z0-9] and single
    spaces, none of them at either end. *)
Definition normal (s : jsstring) : Prop :=
  Forall (fun c => is_norm_char c = true) s /\
  includes s [SP; SP] = false /\
  starts_with [SP] s = false /\
  starts_with [SP] (rev s) = false.

(** A word of the pattern [p] is a word of the query. *)
Definition shares_word (user p : jsstring) : bool :=
  existsb (fun w => existsb (JsString.eqb w) (words_of user)) (words_of p).

(** The submit handler of the page, as far as the reply goes:
    [txt = input.value.trim(); if (!txt) return;] and then
    [getAnswer(txt)]. *)
Definition on_submit (value : jsstring) (FAQ : list entry) : option reply :=
  let txt := trim value in
  if negb (nonempty txt) then None else Some (getAnswer txt FAQ).

(** The first entry of [sample_kb]. *)
Definition sample_entry : entry :=
  Entry (str "What is a CAB?") (str "A Change Advisory Board reviews RFCs.")
        [str "What is a CAB?"].

(** Two runs of the matcher from states that differ in the way their index
    is written. *)
Ltac same_state :=
  match goal with
  | |- m _ ?x _ = m _ ?y _ =>
      replace x with y; [reflexivity|f_equal; cbn [length]; lia]
  end.

(* ================================================================== *)
(** ** Strings and lists *)

Lemma eqb_eq s t : JsString.eqb s t = true <-> s = t.
Proof.
  unfold JsString.eqb; destruct (list_eq_dec N.eq_dec s t); split; congruence.
Qed.

Lemma dedup_aux_In seen l x :
  In x (dedup_aux seen l) -> In x l /\ ~ In x seen.
Proof.
  revert seen; induction l as [|y l IH]; intros seen H; simpl in *.
  - contradiction.
  - destruct (existsb (JsString.eqb y) seen) eqn:E.
    + apply IH in H. tauto.
    + destruct H as [->|H].
      * split; [now left|]. intro Hin.
        assert (existsb (JsString.eqb x) seen = true) as E'.
        { apply existsb_exists. exists x. split; [assumption|now apply eqb_eq]. }
        congruence.
      * apply IH in H. destruct H as [H1 H2]. split; [now right|].
        intro Hin. apply H2. now right.
Qed.

Lemma dedup_aux_NoDup seen l : NoDup (dedup_aux seen l).
Proof.
  revert seen; induction l as [|y l IH]; intros seen; simpl.
  - constructor.
  - destruct (existsb (JsString.eqb y) seen); [apply IH|].
    constructor; [|apply IH].
    intro H. apply dedup_aux_In in H. destruct H as [_ H]. apply H. now left.
Qed.

Lemma NoDup_firstn {A} n (l : list A) : NoDup l -> NoDup (firstn n l).
Proof.
  intro H; revert n; induction H as [|x l Hx Hl IH]; intros [|n]; simpl;
    try constructor.
  - intro Hin. apply Hx. revert Hin. clear. revert n.
    induction l as [|y l IH]; intros [|n]; simpl; try tauto.
    intros [->|H]; [now left|right; eauto].
  - apply IH.
Qed.

Lemma In_firstn {A} n (l : list A) x : In x (firstn n l) -> In x l.
Proof.
  revert n; induction l as [|y l IH]; intros [|n]; simpl; try tauto.
  intros [->|H]; [now left|right; eauto].
Qed.

(* ================================================================== *)
(** ** The pattern builder *)

(** C7: [buildPatternsFromQuestion(q)] has [q] itself, unchanged, as its
    first element, followed by at most eight keywords of [q] without
    duplicates; it has between one and nine elements. *)
Theorem buildPatterns_shape (question : jsstring) :
  let ps := buildPatternsFromQuestion question in
  nth_error ps 0 = Some question /\
  length (tl ps) <= 8 /\
  NoDup (tl ps) /\
  incl (tl ps) (keywords question) /\
  1 <= length ps <= 9.
Proof.
  cbv zeta. unfold buildPatternsFromQuestion.
  assert (L : length (firstn 8 (dedup (keywords question))) <= 8)
    by apply firstn_le_length.
  assert (D : NoDup (firstn 8 (dedup (keywords question))))
    by apply NoDup_firstn, dedup_aux_NoDup.
  assert (I : incl (firstn 8 (dedup (keywords question))) (keywords question)).
  { intros x Hx. apply In_firstn in Hx. now apply dedup_aux_In in Hx. }
  remember (firstn 8 (dedup (keywords question))) as kws eqn:E. clear E.
  simpl. repeat split; auto; lia.
Qed.

(* ================================================================== *)
(** ** Answer selection *)

Lemma gt_true a b :
  gt a b = true -> exists x y, a = Num x /\ b = Num y /\ (y < x)%Q.
Proof.
  destruct a as [|x], b as [|y]; simpl; try discriminate.
  destruct (Qlt_le_dec y x); [|discriminate]. intros _. eauto.
Qed.

Lemma gt_num x y : gt (Num x) (Num y) = true <-> (y < x)%Q.
Proof.
  simpl. destruct (Qlt_le_dec y x); split; intros; try easy. lra.
Qed.

Lemma gt_num_false x y : gt (Num x) (Num y) = false <-> (x <= y)%Q.
Proof.
  simpl. destruct (Qlt_le_dec y x); split; intros; try easy. lra.
Qed.

Section BestLoop.

Variable txt : jsstring.

Let score (e : entry) : jsnum := scoreMatch txt (patterns e).

(** The score kept stays a number and never goes down. *)
Lemma best_loop_mono faq : forall i0 b x,
  best_s b = Num x ->
  exists y, best_s (best_loop txt i0 faq b) = Num y /\ (x <= y)%Q.
Proof.
  induction faq as [|e faq IH]; intros i0 b x Hb; simpl.
  - exists x. split; [assumption|lra].
  - destruct (gt (scoreMatch txt (patterns e)) (best_s b)) eqn:G.
    + apply gt_true in G. destruct G as (z & x' & Hz & Hx' & Hlt).
      rewrite Hb in Hx'. injection Hx' as <-.
      destruct (IH (S i0) (Best (Z.of_nat i0) (scoreMatch txt (patterns e))) z Hz)
        as (y & Hy & Hle).
      exists y. split; [assumption|lra].
    + apply IH. assumption.
Qed.

(** No entry scores higher than the score kept at the end. *)
Lemma best_loop_max faq : forall i0 b x,
  best_s b = Num x ->
  forall e, In e faq -> gt (score e) (best_s (best_loop txt i0 faq b)) = false.
Proof.
  induction faq as [|e0 faq IH]; intros i0 b x Hb e Hin; simpl in *.
  - contradiction.
  - set (b1 := if gt (scoreMatch txt (patterns e0)) (best_s b)
               then Best (Z.of_nat i0) (scoreMatch txt (patterns e0)) else b).
    assert (H1 : exists x1, best_s b1 = Num x1 /\ gt (score e0) (Num x1) = false).
    { unfold b1, score. destruct (gt (scoreMatch txt (patterns e0)) (best_s b)) eqn:G.
      - apply gt_true in G. destruct G as (z & _ & Hz & _).
        exists z. simpl. split; [assumption|]. rewrite Hz. apply gt_num_false. lra.
      - exists x. split; [assumption|]. now rewrite <- Hb. }
    destruct H1 as (x1 & Hb1 & Hg).
    destruct Hin as [<-|Hin].
    + destruct (best_loop_mono faq (S i0) b1 x1 Hb1) as (y & Hy & Hle).
      rewrite Hy. destruct (score e0) as [|z]; [reflexivity|].
      apply gt_num_false. apply gt_num_false in Hg. lra.
    + now apply (IH (S i0) b1 x1 Hb1).
Qed.

(** Either nothing beat the score the loop started with, or the entry kept
    is the first one no earlier entry equals or beats. *)
Lemma best_loop_cases faq : forall i0 b x,
  best_s b = Num x ->
  (best_loop txt i0 faq b = b /\
   forall e, In e faq -> gt (score e) (best_s b) = false) \/
  (exists j e,
      nth_error faq j = Some e /\
      best_i (best_loop txt i0 faq b) = Z.of_nat (i0 + j) /\
      best_s (best_loop txt i0 faq b) = score e /\
      gt (score e) (best_s b) = true /\
      forall j' e', j' < j -> nth_error faq j' = Some e' ->
                    score e' = NaN \/ gt (score e) (score e') = true).
Proof.
  induction faq as [|e0 faq IH]; intros i0 b x Hb; simpl.
  - left. split; [reflexivity|contradiction].
  - fold (score e0). destruct (gt (score e0) (best_s b)) eqn:G.
    + right. pose proof G as G'. apply gt_true in G'.
      destruct G' as (z & x' & Hz & Hx' & Hlt).
      rewrite Hb in Hx'. injection Hx' as <-.
      destruct (IH (S i0) (Best (Z.of_nat i0) (score e0)) z Hz)
        as [[E Hall]|(j & e & Hn & Hi & Hs & Hg & Hfirst)].
      * exists 0, e0. rewrite E. simpl.
        split; [reflexivity|]. split; [f_equal; lia|].
        split; [reflexivity|]. split; [assumption|].
        intros j' e' Hj. lia.
      * exists (S j), e. simpl in Hg. simpl.
        split; [assumption|]. split; [rewrite Hi; f_equal; lia|].
        split; [assumption|]. split.
        -- rewrite Hb. apply gt_true in Hg.
           destruct Hg as (y & z' & Hy & Hz' & Hlt').
           rewrite Hy. rewrite Hz in Hz'. injection Hz' as <-.
           apply gt_num. lra.
        -- intros [|j'] e' Hj He'; simpl in He'.
           ++ injection He' as <-. now right.
           ++ apply (Hfirst j' e'); [lia|assumption].
    + destruct (IH (S i0) b x Hb)
        as [[E Hall]|(j & e & Hn & Hi & Hs & Hg & Hfirst)].
      * left. split; [assumption|]. intros e [<-|Hin]; auto.
      * right. exists (S j), e. simpl.
        split; [assumption|]. split; [rewrite Hi; f_equal; lia|].
        split; [assumption|]. split; [assumption|].
        intros [|j'] e' Hj He'; simpl in He'.
           ++ injection He' as <-.
              destruct (score e0) as [|z] eqn:Ez; [now left|right].
              rewrite Hb in G, Hg. apply gt_num_false in G.
              apply gt_true in Hg. destruct Hg as (y & x' & Hy & Hx' & Hlt).
              injection Hx' as <-. rewrite Hy. apply gt_num. lra.
           ++ apply (Hfirst j' e'); [lia|assumption].
Qed.

End BestLoop.

(** When the score kept clears the threshold, the index kept is one of
    [FAQ]. *)
Lemma confident_has_item txt FAQ :
  gt (best_s (bestMatch txt FAQ)) (Num THRESHOLD) = true ->
  exists i e, best_i (bestMatch txt FAQ) = Z.of_nat i /\
              nth_error FAQ i = Some e /\
              item_at FAQ (best_i (bestMatch txt FAQ)) = Some e.
Proof.
  intro H. unfold bestMatch in *.
  destruct (best_loop_cases txt FAQ 0 (Best (-1) (Num 0)) 0 eq_refl)
    as [[E _]|(j & e & Hn & Hi & _)].
  - rewrite E in H. simpl in H. discriminate.
  - exists j, e. simpl in Hi. repeat split; auto.
    unfold item_at. rewrite Hi.
    destruct (Z.ltb_spec (Z.of_nat j) 0); [lia|].
    now rewrite Nat2Z.id.
Qed.

(** C5: the loop of [getAnswer] keeps the first entry with the highest
    score (no entry beats the score kept, and no earlier entry reaches it);
    the reply is the answer of that entry exactly when the score kept is
    above 0.35, and otherwise the request to rephrase; on an empty knowledge
    base nothing is kept, with score 0. *)
Theorem bestMatch_first_highest (txt : jsstring) (FAQ : list entry) :
  let score e := scoreMatch txt (patterns e) in
  let b := bestMatch txt FAQ in
  (forall e, In e FAQ -> gt (score e) (best_s b) = false) /\
  ((b = Best (-1) (Num 0) /\
    forall e, In e FAQ -> gt (score e) (Num 0) = false) \/
   (exists i e,
       best_i b = Z.of_nat i /\ nth_error FAQ i = Some e /\
       best_s b = score e /\ gt (score e) (Num 0) = true /\
       forall j e', j < i -> nth_error FAQ j = Some e' ->
                    score e' = NaN \/ gt (score e) (score e') = true)) /\
  (if gt (best_s b) (Num THRESHOLD)
   then exists e, item_at FAQ (best_i b) = Some e /\
                  getAnswer txt FAQ = Matched (a e) (best_s b)
   else getAnswer txt FAQ = LowConfidence) /\
  bestMatch txt [] = Best (-1) (Num 0) /\
  getAnswer txt [] = LowConfidence.
Proof.
  cbv zeta. repeat split.
  - intros e He. unfold bestMatch.
    now apply (best_loop_max txt FAQ 0 (Best (-1) (Num 0)) 0 eq_refl).
  - unfold bestMatch.
    destruct (best_loop_cases txt FAQ 0 (Best (-1) (Num 0)) 0 eq_refl)
      as [[E Hall]|(j & e & Hn & Hi & Hs & Hg & Hfirst)].
    + left. split; assumption.
    + right. exists j, e. repeat split; auto.
  - destruct (gt (best_s (bestMatch txt FAQ)) (Num THRESHOLD)) eqn:G.
    + destruct (confident_has_item txt FAQ G) as (i & e & _ & _ & He).
      exists e. split; [assumption|].
      unfold getAnswer. now rewrite G, He.
    + unfold getAnswer. now rewrite G.
Qed.

(** C10: when [getAnswer] takes the confident branch, the index kept is at
    least 0 and below the length of [FAQ], so [FAQ[best.i]] is an entry and
    reading its answer raises no TypeError. *)
Theorem confident_index_valid (txt : jsstring) (FAQ : list entry) :
  gt (best_s (bestMatch txt FAQ)) (Num THRESHOLD) = true ->
  (0 <= best_i (bestMatch txt FAQ) < Z.of_nat (length FAQ))%Z /\
  item_at FAQ (best_i (bestMatch txt FAQ)) <> None /\
  getAnswer txt FAQ <> TypeError.
Proof.
  intro G. destruct (confident_has_item txt FAQ G) as (i & e & Hi & Hn & He).
  repeat split.
  - lia.
  - rewrite Hi. apply Nat2Z.inj_lt. apply nth_error_Some. congruence.
  - congruence.
  - unfold getAnswer. rewrite G, He. discriminate.
Qed.

Lemma confident_index_valid_witness :
  (0 <= best_i (bestMatch (str "what is lead time") sample_kb)
   < Z.of_nat (length sample_kb))%Z /\
  item_at sample_kb (best_i (bestMatch (str "what is lead time") sample_kb))
    <> None /\
  getAnswer (str "what is lead time") sample_kb <> TypeError.
Proof.
  apply (confident_index_valid (str "what is lead time") sample_kb).
  vm_compute. reflexivity.
Defined.

(* ================================================================== *)
(** ** Scoring *)

Lemma score_loop_nan u ps : score_loop u NaN ps = NaN.
Proof. induction ps as [|p ps IH]; simpl; auto. Qed.

(** One pattern without a word makes the whole score NaN, whatever the
    other patterns are. *)
Lemma score_loop_zero_words u ps : forall best p,
  In p ps -> words_of p = [] -> score_loop u best ps = NaN.
Proof.
  induction ps as [|p0 ps IH]; intros best p Hin Hw; simpl.
  - contradiction.
  - destruct Hin as [->|Hin].
    + unfold coverage. rewrite Hw. simpl.
      replace (JsNumber.max best NaN) with NaN by (now destruct best).
      apply score_loop_nan.
    + now apply (IH _ p).
Qed.

Lemma coverage_range u p :
  words_of p <> [] -> in_unit_interval (coverage u p).
Proof.
  unfold coverage, hits. intro H.
  pose proof (filter_length_le (is_hit u) (words_of p)) as L.
  destruct (words_of p) as [|w ws] eqn:E; [congruence|].
  remember (length (filter (is_hit u) (w :: ws))) as h eqn:Eh. clear Eh.
  simpl length in *. unfold div_len, in_unit_interval, Qle.
  cbn [Qnum Qden inject_Z].
  rewrite <- Pos.of_nat_succ, Zpos_P_of_succ_nat. lia.
Qed.

Lemma max_range a b :
  in_unit_interval a -> in_unit_interval b -> in_unit_interval (JsNumber.max a b).
Proof.
  destruct a as [|x], b as [|y]; simpl; try tauto.
  intros Ha Hb. destruct (Qlt_le_dec x y); simpl; tauto.
Qed.

(** When every pattern has a word, the score is a number of [0,1]. *)
Lemma scoreMatch_range user ps :
  Forall (fun p => words_of p <> []) ps ->
  in_unit_interval (scoreMatch user ps).
Proof.
  unfold scoreMatch. generalize (padded user) as u. intro u.
  assert (H0 : in_unit_interval (Num 0)) by (simpl; lra).
  revert H0. generalize (Num 0) as best.
  induction ps as [|p ps IH]; intros best Hb HF; simpl; [assumption|].
  inversion HF as [|? ? Hp HF']; subst.
  apply IH; [|assumption]. apply max_range; [assumption|].
  now apply coverage_range.
Qed.

(** C1, at a pattern that normalizes to no word: the quotient is 0/0, and
    [scoreMatch] returns NaN, which is not a number of [0,1]. *)
Theorem scoreMatch_zero_words_NaN :
  words_of (str "???") = [] /\
  scoreMatch (str "hello") [str "???"] = NaN /\
  scoreMatch (str "hello") [str "hello"; str "???"] = NaN /\
  ~ in_unit_interval (scoreMatch (str "hello") [str "???"]).
Proof.
  repeat split; try (vm_compute; reflexivity).
  vm_compute. tauto.
Qed.

(** *** Whole words *)

Lemma starts_with_spec t : forall s,
  starts_with t s = true <-> exists r, s = t ++ r.
Proof.
  induction t as [|c t IH]; intros s; simpl.
  - split; eauto.
  - destruct s as [|d s].
    + split; [discriminate|]. intros (r & Hr). discriminate.
    + rewrite andb_true_iff, N.eqb_eq, IH. split.
      * intros (-> & r & ->). eauto.
      * intros (r & Hr). injection Hr as -> ->. eauto.
Qed.

Lemma includes_spec s t :
  includes s t = true <-> exists l r, s = l ++ t ++ r.
Proof.
  induction s as [|c s IH]; simpl.
  - rewrite orb_false_r, starts_with_spec. split.
    + intros (r & ->). exists [], r. reflexivity.
    + intros (l & r & H). destruct l; simpl in H.
      * eauto.
      * discriminate.
  - rewrite orb_true_iff, starts_with_spec, IH. split.
    + intros [(r & ->)|(l & r & ->)].
      * exists [], r. reflexivity.
      * exists (c :: l), r. reflexivity.
    + intros (l & r & H). destruct l as [|d l]; simpl in H.
      * left. eauto.
      * right. injection H as -> ->. eauto.
Qed.

Lemma split_sp_aux_last cur x :
  ~ In SP x -> split_sp_aux cur x = [rev cur ++ x].
Proof.
  revert cur; induction x as [|c x IH]; intros cur H; simpl.
  - now rewrite app_nil_r.
  - destruct (N.eqb_spec c SP) as [->|Hc].
    + exfalso. apply H. now left.
    + rewrite IH by (intro; apply H; now right).
      simpl. now rewrite <- app_assoc.
Qed.

Lemma split_sp_aux_first cur x y :
  ~ In SP x ->
  split_sp_aux cur (x ++ SP :: y) = (rev cur ++ x) :: split_sp_aux [] y.
Proof.
  revert cur; induction x as [|c x IH]; intros cur H; simpl.
  - now rewrite app_nil_r.
  - destruct (N.eqb_spec c SP) as [->|Hc].
    + exfalso. apply H. now left.
    + rewrite IH by (intro; apply H; now right).
      simpl. now rewrite <- app_assoc.
Qed.

Lemma split_sp_aux_later cur x y w :
  In w (split_sp_aux [] y) -> In w (split_sp_aux cur (x ++ SP :: y)).
Proof.
  revert cur; induction x as [|c x IH]; intros cur H; simpl.
  - now right.
  - destruct (c =? SP)%N; [right|]; now apply IH.
Qed.

(** A word between two spaces of the padded string is one of the pieces of
    the string. *)
Lemma padded_word_in_split n w l r :
  ~ In SP w ->
  [SP] ++ n ++ [SP] = l ++ [SP] ++ w ++ [SP] ++ r ->
  In w (split_sp n).
Proof.
  intros Hw E. unfold split_sp.
  assert (F : forall y, In w (split_sp_aux [] (w ++ SP :: y))).
  { intro y. rewrite split_sp_aux_first by assumption. now left. }
  assert (L : In w (split_sp_aux [] w)).
  { rewrite split_sp_aux_last by assumption. now left. }
  assert (R : forall n', n' ++ [SP] = w ++ [SP] ++ r ->
                         n' = w \/ exists r', n' = w ++ SP :: r').
  { intros n' H. destruct (exists_last (l := SP :: r)) as (r' & c & Hr');
      [discriminate|].
    simpl in H. rewrite Hr', app_assoc in H.
    apply app_inj_tail in H. destruct H as [-> _].
    destruct r' as [|c' r']; simpl in Hr'.
    - left. now rewrite app_nil_r.
    - injection Hr' as <- _. right. eauto. }
  destruct l as [|c l]; simpl in E; injection E as E.
  - destruct (R n E) as [->|(r' & ->)]; [exact L|apply F].
  - subst c.
    assert (E' : n ++ [SP] = (l ++ [SP]) ++ w ++ [SP] ++ r)
      by (now rewrite <- app_assoc).
    destruct (exists_last (l := SP :: r)) as (r' & c & Hr'); [discriminate|].
    simpl in E'. rewrite Hr' in E'.
    rewrite !app_assoc in E'. apply app_inj_tail in E'. destruct E' as [-> _].
    rewrite <- !app_assoc. simpl.
    apply split_sp_aux_later.
    destruct r' as [|c' r']; simpl in Hr'.
    + now rewrite app_nil_r.
    + injection Hr' as <- _. apply F.
Qed.

(** A pattern word counts as a hit only when it is one of the words of the
    normalized query. *)
Lemma hit_is_word user w :
  ~ In SP w -> w <> [] ->
  is_hit (padded user) w = true -> In w (words_of user).
Proof.
  intros Hsp Hne H. unfold is_hit in H. apply includes_spec in H.
  destruct H as (l & r & E). unfold padded in E.
  unfold words_of, filter_Boolean. apply filter_In. split.
  - apply (padded_word_in_split _ _ l r Hsp). rewrite E.
    now rewrite <- !app_assoc.
  - destruct w; [congruence|reflexivity].
Qed.

(** C9: when the normalized query contains "category" but none of its
    words is "cat", the pattern word "cat" is no hit, and a pattern "cat"
    has no hit at all. *)
Theorem cat_no_hit_in_category (user : jsstring) :
  includes (normalize user) (str "category") = true ->
  existsb (JsString.eqb (str "cat")) (words_of user) = false ->
  is_hit (padded user) (str "cat") = false /\
  hits (padded user) (words_of (str "cat")) = 0 /\
  scoreMatch user [str "cat"] = Num 0.
Proof.
  intros _ Hno.
  assert (H : is_hit (padded user) (str "cat") = false).
  { destruct (is_hit (padded user) (str "cat")) eqn:E; [|reflexivity].
    apply hit_is_word in E.
    - assert (existsb (JsString.eqb (str "cat")) (words_of user) = true).
      { apply existsb_exists. exists (str "cat"). split; [assumption|].
        now apply eqb_eq. }
      congruence.
    - vm_compute. intuition discriminate.
    - discriminate. }
  split; [assumption|].
  assert (W : words_of (str "cat") = [str "cat"]) by (vm_compute; reflexivity).
  assert (H0 : hits (padded user) (words_of (str "cat")) = 0).
  { rewrite W. unfold hits. simpl filter. now rewrite H. }
  split; [assumption|].
  unfold scoreMatch. cbn [score_loop]. unfold coverage. rewrite H0, W.
  reflexivity.
Qed.

Lemma cat_no_hit_in_category_witness :
  is_hit (padded (str "Which category?")) (str "cat") = false /\
  hits (padded (str "Which category?")) (words_of (str "cat")) = 0 /\
  scoreMatch (str "Which category?") [str "cat"] = Num 0.
Proof.
  apply (cat_no_hit_in_category (str "Which category?"));
    vm_compute; reflexivity.
Defined.

(* ================================================================== *)
(** ** Reloading *)

(** C2 fails as stated: a reload that meets an unreadable file replaces a
    loaded knowledge base by the empty one. *)
Lemma reload_failure_not_stale :
  failed Unreadable = true /\ reload Unreadable sample_kb <> sample_kb.
Proof. split; [reflexivity|discriminate]. Qed.

(** C2, amended: a reload that fails, or that yields no entries, leaves the
    knowledge base empty, whatever was loaded before. *)
Theorem reload_failure_empties (src : pdf_source) (KB : list entry) :
  failed src = true \/ loadPdfKnowledge src = [] ->
  reload src KB = [].
Proof.
  unfold reload. intros [H|H]; [|assumption].
  destruct src as [| |t]; simpl in *; try reflexivity.
  now rewrite H.
Qed.

Lemma reload_failure_empties_witness :
  reload (Extracted (Some (str "   "))) sample_kb = [].
Proof.
  apply (reload_failure_empties (Extracted (Some (str "   "))) sample_kb).
  left. vm_compute. reflexivity.
Defined.

(* ================================================================== *)
(** ** The matcher consumes input *)

Lemma extends_refl st : extends st st.
Proof.
  exists []. split; [reflexivity|]. split; [simpl; lia|]. now exists [].
Qed.

Lemma extends_trans st1 st2 st3 :
  extends st1 st2 -> extends st2 st3 -> extends st1 st3.
Proof.
  intros (u & Hu & Pu & l & Cu) (v & Hv & Pv & l' & Cv).
  exists (u ++ v). split; [|split].
  - now rewrite Hu, Hv, app_assoc.
  - rewrite length_app. lia.
  - exists (l' ++ l). now rewrite Cv, Cu, app_assoc.
Qed.

Lemma or_else_some a b res :
  or_else a b = Some res -> a = Some res \/ (a = None /\ b = Some res).
Proof. destruct a; simpl; intros; [left|right]; auto. Qed.

Lemma or_else_none_r a : or_else a None = a.
Proof. now destruct a. Qed.

Section StarLoop.

Variable body : mstate -> cont -> option mstate.

Hypothesis body_sound : forall st k res,
  body st k = Some res -> exists st', extends st st' /\ k st' = Some res.

Lemma star_loop_sound g k : forall fuel st res,
  star_loop body g k fuel st = Some res ->
  exists st', extends st st' /\ k st' = Some res.
Proof.
  induction fuel as [|f IH]; intros st res H; simpl in H.
  - exists st. split; [apply extends_refl|assumption].
  - assert (I : forall x,
        body st (fun st' => if pos st <? pos st'
                            then star_loop body g k f st' else None) = Some x ->
        exists st', extends st st' /\ k st' = Some x).
    { intros x Hx. apply body_sound in Hx. destruct Hx as (st1 & E1 & Hx).
      destruct (pos st <? pos st1); [|discriminate].
      apply IH in Hx. destruct Hx as (st2 & E2 & Hx).
      exists st2. split; [eapply extends_trans; eassumption|assumption]. }
    destruct g; apply or_else_some in H.
    + destruct H as [H|[_ H]]; [now apply I|].
      exists st. split; [apply extends_refl|assumption].
    + destruct H as [H|[_ H]]; [|now apply I].
      exists st. split; [apply extends_refl|assumption].
Qed.

End StarLoop.

(** Whenever the matcher succeeds, its continuation succeeded at a state
    reached by consuming input. *)
Lemma m_sound r : forall st k res,
  m r st k = Some res -> exists st', extends st st' /\ k st' = Some res.
Proof.
  induction r as [|P|r1 IH1 r2 IH2|r1 IH1 r2 IH2|g r1 IH1|n r1 IH1| | |r1 IH1];
    intros st k res H; simpl in H.
  - exists st. split; [apply extends_refl|assumption].
  - destruct (rest st) as [|c s] eqn:E; [discriminate|].
    destruct (P c); [|discriminate].
    eexists. split; [|eassumption].
    exists [c]. simpl. split; [assumption|]. split; [lia|]. now exists [].
  - apply IH1 in H. destruct H as (st1 & E1 & H).
    apply IH2 in H. destruct H as (st2 & E2 & H).
    exists st2. split; [eapply extends_trans; eassumption|assumption].
  - apply or_else_some in H. destruct H as [H|[_ H]]; [now apply IH1|now apply IH2].
  - eapply star_loop_sound; eassumption.
  - apply IH1 in H. destruct H as (st1 & E1 & H).
    eexists. split; [|eassumption].
    destruct E1 as (u & Hu & Pu & l & Cu). exists u. simpl.
    split; [assumption|]. split; [assumption|].
    eexists (_ :: l). rewrite Cu. reflexivity.
  - destruct (pos st =? 0); [|discriminate].
    exists st. split; [apply extends_refl|assumption].
  - destruct (rest st); [|discriminate].
    exists st. split; [apply extends_refl|assumption].
  - destruct (m r1 st Some) as [st'|] eqn:E; [|discriminate].
    apply IH1 in E. destruct E as (st1 & (_ & _ & _ & l & Cl) & E).
    injection E as ->.
    eexists. split; [|eassumption]. exists []. simpl.
    split; [reflexivity|]. split; [lia|]. now exists l.
Qed.

Lemma m_sound_top r st res :
  m r st Some = Some res -> extends st res.
Proof.
  intro H. apply m_sound in H. destruct H as (st' & E & H).
  now injection H as <-.
Qed.

(** A match found by [search] starts at a suffix of the input. *)
Lemma search_some r : forall s p i st,
  search r p s = Some (i, st) ->
  exists pre suf, s = pre ++ suf /\ i = p + length pre /\
                  m r (MState i suf []) Some = Some st.
Proof.
  induction s as [|c s IH]; intros p i st H; simpl in H.
  - destruct (m r (MState p [] []) Some) as [x|] eqn:E; [|discriminate].
    injection H as <- <-. exists [], []. simpl.
    rewrite Nat.add_0_r. auto.
  - destruct (m r (MState p (c :: s) []) Some) as [x|] eqn:E.
    + injection H as <- <-. exists [], (c :: s). simpl.
      rewrite Nat.add_0_r. auto.
    + apply IH in H. destruct H as (pre & suf & -> & -> & H).
      exists (c :: pre), suf. simpl.
      replace (p + S (length pre)) with (S p + length pre) by lia. auto.
Qed.

Lemma search_none r : forall s p,
  (forall pre suf i, s = pre ++ suf -> m r (MState i suf []) Some = None) ->
  search r p s = None.
Proof.
  induction s as [|c s IH]; intros p H; simpl.
  - now rewrite (H [] [] p eq_refl).
  - rewrite (H [] (c :: s) p eq_refl). apply IH.
    intros pre suf i ->. apply (H (c :: pre) suf i). reflexivity.
Qed.

(** The equations of the matcher. *)
Lemma m_seq r1 r2 st k : m (Seq r1 r2) st k = m r1 st (fun st' => m r2 st' k).
Proof. reflexivity. Qed.

Lemma m_chr P st k res :
  m (Chr P) st k = Some res ->
  exists c s, rest st = c :: s /\ P c = true /\ k (MState (S (pos st)) s (caps st)) = Some res.
Proof.
  simpl. destruct (rest st) as [|c s]; [discriminate|].
  destruct (P c) eqn:E; [|discriminate]. eauto.
Qed.

Lemma extends_length st st' : extends st st' -> length (rest st') <= length (rest st).
Proof. intros (u & -> & _). rewrite length_app. lia. Qed.

Lemma m_star g r st k :
  m (Star g r) st k = star_loop (m r) g k (length (rest st)) st.
Proof. reflexivity. Qed.

Lemma m_group n r st k :
  m (Group n r) st k
  = m r st (fun st' => k (set_cap n (firstn (pos st' - pos st) (rest st)) st')).
Proof. reflexivity. Qed.

Lemma m_chr_cons P p c s cs k :
  m (Chr P) (MState p (c :: s) cs) k
  = if P c then k (MState (S p) s cs) else None.
Proof. reflexivity. Qed.

Lemma lookup_cap_app n v l cs : lookup_cap n (l ++ (n, v) :: cs) <> None.
Proof.
  induction l as [|[i w] l IH]; simpl.
  - rewrite Nat.eqb_refl. discriminate.
  - destruct (i =? n); [discriminate|assumption].
Qed.

(** Stepping over the first part of a sequence in a successful run [H]. *)
Ltac skip_prefix H :=
  rewrite m_seq in H; apply m_sound in H;
  let st := fresh "st" in destruct H as (st & _ & H).

(* ================================================================== *)
(** ** Structured parsing: markers and termination *)

Lemma qa_regex_pieces :
  qa_regex = (Alt Bol (lit LF) ;; Star true ws ;; lit_i UPPER_Q ;; lit COLON ;; qa_after_q)%re.
Proof. reflexivity. Qed.


Lemma has_marker_app u pre suf :
  has_marker u suf = true -> has_marker u (pre ++ suf) = true.
Proof.
  induction pre as [|c pre IH]; intro H; simpl; [assumption|].
  specialize (IH H). destruct (pre ++ suf) as [|d r] eqn:E.
  - discriminate.
  - rewrite IH. apply orb_true_r.
Qed.

Lemma qa_regex_match st res :
  m qa_regex st Some = Some res ->
  has_marker UPPER_Q (rest st) = true /\
  extends st res /\ length (rest res) < length (rest st).
Proof.
  intro H. pose proof (m_sound_top _ _ _ H) as Ext.
  rewrite qa_regex_pieces, m_seq in H.
  apply m_sound in H. destruct H as (st1 & E1 & H).
  rewrite m_seq in H.
  apply m_sound in H. destruct H as (st2 & E2 & H).
  rewrite m_seq in H. apply m_chr in H.
  destruct H as (c & s2 & R2 & Hc & H).
  rewrite m_seq in H. apply m_chr in H.
  destruct H as (d & s3 & R3 & Hd & H). cbn [rest pos caps] in *.
  apply m_sound_top in H. apply extends_length in H. cbn [rest] in H.
  subst s2.
  destruct E1 as (u1 & Hu1 & _). destruct E2 as (u2 & Hu2 & _).
  split; [|split; [assumption|]].
  - rewrite Hu1, Hu2, R2. apply has_marker_app, has_marker_app.
    apply N.eqb_eq in Hd. subst d. cbn [has_marker]. cbv beta in Hc. rewrite Hc. reflexivity.
  - rewrite Hu1, Hu2, R2, !length_app. simpl. lia.
Qed.

(** Both groups take part in every match of the question/answer regex, so
    [m[1]] and [m[2]] are strings. *)
Lemma qa_regex_groups st res :
  m qa_regex st Some = Some res ->
  get_cap 1 res <> None /\ get_cap 2 res <> None.
Proof.
  intro H. rewrite qa_regex_pieces in H.
  do 4 skip_prefix H. unfold qa_after_q in H. skip_prefix H.
  rewrite m_seq, m_group in H. apply m_sound in H.
  destruct H as (stB & _ & H). split.
  - apply m_sound_top in H. destruct H as (_ & _ & _ & l & Cl).
    unfold get_cap. rewrite Cl. apply lookup_cap_app.
  - unfold qa_mid in H. skip_prefix H. unfold qa_mid_k in H.
    do 3 skip_prefix H. unfold qa_tail in H. skip_prefix H.
    rewrite m_seq, m_group in H. apply m_sound in H.
    destruct H as (stD & _ & H).
    apply m_sound_top in H. destruct H as (_ & _ & _ & l & Cl).
    unfold get_cap. rewrite Cl. apply lookup_cap_app.
Qed.

(** The loop of [parseStructuredQA] ends within one round more than the
    text is long. *)
Lemma qa_loop_total : forall fuel p s,
  length s < fuel -> exists l, qa_loop fuel p s = Some l.
Proof.
  induction fuel as [|f IH]; intros p s L; [lia|]. simpl.
  destruct (search qa_regex p s) as [[i st]|] eqn:E; [|eauto].
  apply search_some in E. destruct E as (pre & suf & -> & _ & E).
  apply qa_regex_match in E. destruct E as (_ & _ & E). cbn [rest] in E.
  rewrite length_app in L.
  destruct (IH (pos st) (rest st)) as (l & ->); [lia|]. eauto.
Qed.

Lemma parseStructuredQA_total text :
  qa_loop (S (length text)) 0 text = Some (parseStructuredQA text).
Proof.
  unfold parseStructuredQA.
  destruct (qa_loop_total (S (length text)) 0 text) as (l & ->); [lia|].
  reflexivity.
Qed.

(* ================================================================== *)
(** ** Fallback chunking *)

(** A match of the first-sentence regex captures at least one code unit. *)
Lemma first_regex_match st res :
  m first_regex st Some = Some res -> group 1 res <> [].
Proof.
  unfold first_regex, Plus. intro H.
  rewrite m_seq in H. cbn [m] in H.
  unfold dot at 1 in H. apply m_chr in H.
  destruct H as (c & s & R & _ & H). cbn [rest] in H.
  apply star_loop_sound in H; [|apply m_sound].
  destruct H as (st1 & (u & Hu & Pu & _) & H). cbn [rest pos] in Hu, Pu.
  destruct (rest st1) as [|d s1]; [discriminate|].
  destruct (is_terminator d); [|discriminate].
  unfold ws in H. apply m_chr in H.
  destruct H as (e & s2 & _ & _ & H). injection H as <-.
  unfold group, get_cap. cbn [caps set_cap pos lookup_cap Nat.eqb].
  rewrite R.
  match goal with |- firstn ?n _ <> _ =>
    assert (E : n = S (S (length u))) by (destruct (pos st); lia);
    rewrite E end.
  simpl. discriminate.
Qed.

Lemma first_sentence_nonempty p : p <> [] -> first_sentence p <> [].
Proof.
  intro H. unfold first_sentence.
  destruct (search first_regex 0 p) as [[i st]|] eqn:E; [|assumption].
  apply search_some in E. destruct E as (pre & suf & _ & _ & E).
  now apply first_regex_match in E.
Qed.

Lemma label_of_nonempty p : p <> [] -> label_of p <> [].
Proof.
  intro H. unfold label_of.
  destruct (120 <? length (first_sentence p)).
  - intro E. apply app_eq_nil in E. destruct E as [_ E]. discriminate.
  - now apply first_sentence_nonempty.
Qed.

Lemma paragraphs_nonempty text p : In p (paragraphs text) -> p <> [].
Proof.
  unfold paragraphs, filter_Boolean. intro H. apply filter_In in H.
  destruct H as [_ H]. destruct p; [discriminate|discriminate].
Qed.

(** C4 fails as stated: the structured parse gives an entry with an empty
    body when nothing follows the answer marker, and an entry with an empty
    label when only white space follows the question marker. *)
Lemma structured_entry_may_be_empty :
  (exists e, In e (parseStructuredQA (str "Q: x" ++ [LF] ++ str "A:")) /\
             a e = []) /\
  (exists e, In e (parseStructuredQA (str "Q: " ++ [LF] ++ str "A: x")) /\
             q e = []).
Proof.
  split; eexists; (split; [vm_compute; left; reflexivity|reflexivity]).
Qed.

(** C4, amended: every entry of the fallback paragraph chunking has a
    label and a body that are not empty, for every text. *)
Theorem fallback_entries_nonempty (text : jsstring) (e : entry) :
  In e (parseUnstructured text) -> q e <> [] /\ a e <> [].
Proof.
  unfold parseUnstructured. intro H. apply in_map_iff in H.
  destruct H as (p & <- & H). apply paragraphs_nonempty in H.
  cbn [q a]. split; [now apply label_of_nonempty|assumption].
Qed.

Lemma fallback_entries_nonempty_witness :
  q (Entry (str "Hello.") (str "Hello. World") [str "Hello."; str "hello"])
    <> [] /\
  a (Entry (str "Hello.") (str "Hello. World") [str "Hello."; str "hello"])
    <> [].
Proof.
  apply (fallback_entries_nonempty (str "Hello. World")).
  vm_compute. left. reflexivity.
Defined.

Lemma paragraphs_nil : paragraphs [] = [].
Proof. reflexivity. Qed.

(* ================================================================== *)
(** ** Loops over one character class *)

Lemma star_greedy_chr P k cs : forall s fuel p,
  length s <= fuel ->
  star_loop (m (Chr P)) true k fuel (MState p s cs) = greedy_chr P k p s cs.
Proof.
  induction s as [|c s IH]; intros [|f] p L; simpl in L; try lia;
    try reflexivity.
  cbn [star_loop greedy_chr]. rewrite m_chr_cons. cbn [pos].
  destruct (P c); [|reflexivity].
  replace (p <? S p) with true by (symmetry; apply Nat.ltb_lt; lia).
  rewrite IH by lia. reflexivity.
Qed.

Lemma star_lazy_chr P k cs : forall s fuel p,
  length s <= fuel ->
  star_loop (m (Chr P)) false k fuel (MState p s cs) = lazy_chr P k p s cs.
Proof.
  induction s as [|c s IH]; intros [|f] p L; simpl in L; try lia;
    try reflexivity.
  - simpl. apply or_else_none_r.
  - cbn [star_loop lazy_chr]. rewrite m_chr_cons. cbn [pos].
    destruct (P c); [|reflexivity].
    replace (p <? S p) with true by (symmetry; apply Nat.ltb_lt; lia).
    rewrite IH by lia. reflexivity.
Qed.

Lemma m_star_greedy_chr P p s cs k :
  m (Star true (Chr P)) (MState p s cs) k = greedy_chr P k p s cs.
Proof. rewrite m_star. apply star_greedy_chr. reflexivity. Qed.

Lemma m_star_lazy_chr P p s cs k :
  m (Star false (Chr P)) (MState p s cs) k = lazy_chr P k p s cs.
Proof. rewrite m_star. apply star_lazy_chr. reflexivity. Qed.

Lemma greedy_chr_stop P k p t cs :
  stops P t -> greedy_chr P k p t cs = k (MState p t cs).
Proof. destruct t as [|c t]; simpl; [reflexivity|]. now intros ->. Qed.

(** The greedy loop first runs over a prefix in the class; what succeeds
    after the prefix is the result. *)
Lemma greedy_chr_app_some P k cs res w : forall p t,
  Forall (fun c => P c = true) w ->
  greedy_chr P k (p + length w) t cs = Some res ->
  greedy_chr P k p (w ++ t) cs = Some res.
Proof.
  induction w as [|c w IH]; intros p t Hw H; simpl in *.
  - now rewrite Nat.add_0_r in H.
  - inversion Hw as [|? ? Hc Hw']; subst. rewrite Hc.
    rewrite (IH (S p) t Hw'); [reflexivity|].
    now replace (S p + length w) with (p + S (length w)) by lia.
Qed.

(** The greedy loop fails when the continuation fails wherever the loop can
    stop. *)
Lemma greedy_chr_none P k cs t w : forall p,
  stops P t ->
  (forall w1 w2, w = w1 ++ w2 ->
                 k (MState (p + length w1) (w2 ++ t) cs) = None) ->
  greedy_chr P k p (w ++ t) cs = None.
Proof.
  induction w as [|c w IH]; intros p Ht H.
  - simpl. rewrite greedy_chr_stop by assumption.
    specialize (H [] [] eq_refl). simpl in H. now rewrite Nat.add_0_r in H.
  - cbn [app greedy_chr].
    assert (H0 : k (MState p (c :: w ++ t) cs) = None).
    { specialize (H [] (c :: w) eq_refl). simpl in H.
      now rewrite Nat.add_0_r in H. }
    rewrite H0, IH.
    + now destruct (P c).
    + assumption.
    + intros w1 w2 ->. specialize (H (c :: w1) w2 eq_refl). simpl in H.
      now replace (S p + length w1) with (p + S (length w1)) by lia.
Qed.

(** The lazy loop passes the positions where the continuation fails. *)
Lemma lazy_chr_skip P k cs t u : forall p,
  Forall (fun c => P c = true) u ->
  (forall u1 u2, u = u1 ++ u2 -> u2 <> [] ->
                 k (MState (p + length u1) (u2 ++ t) cs) = None) ->
  lazy_chr P k p (u ++ t) cs = lazy_chr P k (p + length u) t cs.
Proof.
  induction u as [|c u IH]; intros p Hu H.
  - simpl. now rewrite Nat.add_0_r.
  - cbn [app lazy_chr]. inversion Hu as [|? ? Hc Hu']; subst.
    assert (H0 : k (MState p (c :: u ++ t) cs) = None).
    { specialize (H [] (c :: u) eq_refl). simpl in H.
      rewrite Nat.add_0_r in H. apply H. discriminate. }
    rewrite H0, Hc. cbn [or_else]. rewrite IH.
    + f_equal. simpl. lia.
    + assumption.
    + intros u1 u2 -> Hne. specialize (H (c :: u1) u2 eq_refl Hne).
      simpl in H.
      now replace (S p + length u1) with (p + S (length u1)) by lia.
Qed.

Lemma lazy_chr_here P k p s cs res :
  k (MState p s cs) = Some res -> lazy_chr P k p s cs = Some res.
Proof. destruct s; simpl; intros ->; reflexivity. Qed.

(** The lazy loop fails when the continuation fails wherever the loop can
    stop. *)
Lemma lazy_chr_none P k cs t u : forall p,
  stops P t ->
  (forall u1 u2, u = u1 ++ u2 ->
                 k (MState (p + length u1) (u2 ++ t) cs) = None) ->
  lazy_chr P k p (u ++ t) cs = None.
Proof.
  induction u as [|c u IH]; intros p Ht H.
  - specialize (H [] [] eq_refl). simpl in H. rewrite Nat.add_0_r in H.
    simpl. destruct t as [|d t]; simpl; [assumption|].
    simpl in Ht. now rewrite H, Ht.
  - cbn [app lazy_chr].
    assert (H0 : k (MState p (c :: u ++ t) cs) = None).
    { specialize (H [] (c :: u) eq_refl). simpl in H.
      now rewrite Nat.add_0_r in H. }
    rewrite H0, IH.
    + now destruct (P c).
    + assumption.
    + intros u1 u2 ->. specialize (H (c :: u1) u2 eq_refl). simpl in H.
      now replace (S p + length u1) with (p + S (length u1)) by lia.
Qed.

(* ================================================================== *)
(** ** Trimming *)

Lemma trimStart_split s :
  exists v, s = v ++ trimStart s /\ all_space v.
Proof.
  induction s as [|c s (v & Hv & Fv)]; simpl.
  - exists []. split; [reflexivity|constructor].
  - destruct (is_space c) eqn:E.
    + exists (c :: v). split; [simpl; congruence|]. now constructor.
    + exists []. split; [reflexivity|constructor].
Qed.

Lemma trimStart_head s : trimStart s = [] \/ starts_nonspace (trimStart s).
Proof.
  induction s as [|c s IH]; simpl; [now left|].
  destruct (is_space c) eqn:E; [assumption|].
  right. exists c, s. auto.
Qed.

Lemma non_blank_app s t : non_blank (s ++ t) = non_blank s || non_blank t.
Proof. apply existsb_app. Qed.

Lemma all_space_blank v : all_space v -> non_blank v = false.
Proof.
  induction 1 as [|c v Hc _ IH]; simpl; [reflexivity|]. now rewrite Hc, IH.
Qed.

Lemma non_blank_trimStart s :
  non_blank s = true -> starts_nonspace (trimStart s).
Proof.
  intro H. destruct (trimStart_split s) as (v & Hv & Fv).
  destruct (trimStart_head s) as [E|E]; [|assumption].
  rewrite E, app_nil_r in Hv. subst v.
  rewrite (all_space_blank _ Fv) in H. discriminate.
Qed.

Lemma trimStart_nonspace s : starts_nonspace s -> trimStart s = s.
Proof. intros (c & r & -> & Hc). simpl. now rewrite Hc. Qed.

Lemma trimStart_idem s : trimStart (trimStart s) = trimStart s.
Proof.
  destruct (trimStart_head s) as [->|H]; [reflexivity|].
  now apply trimStart_nonspace.
Qed.

Lemma non_blank_rev s : non_blank (rev s) = non_blank s.
Proof.
  induction s as [|c s IH]; simpl; [reflexivity|].
  rewrite non_blank_app, IH. simpl. rewrite orb_false_r. apply orb_comm.
Qed.

Lemma all_space_rev v : all_space v -> all_space (rev v).
Proof. apply Forall_rev. Qed.

(** A string that is not blank is its trimmed form between two runs of
    white space. *)
Lemma trim_split s :
  non_blank s = true ->
  exists w1 w2, s = w1 ++ trim s ++ w2 /\ all_space w1 /\ all_space w2 /\
                starts_nonspace (trim s) /\ ends_nonspace (trim s).
Proof.
  intro H. unfold trim, trimEnd.
  destruct (trimStart_split s) as (w1 & Hw1 & Fw1).
  pose proof (non_blank_trimStart s H) as (c & r & Et & Hc).
  set (t := trimStart s) in *.
  assert (Ht : non_blank (rev t) = true).
  { rewrite non_blank_rev, Et. simpl. now rewrite Hc. }
  destruct (trimStart_split (rev t)) as (v & Hv & Fv).
  pose proof (non_blank_trimStart (rev t) Ht) as (d & r' & Er & Hd).
  assert (E : t = rev (trimStart (rev t)) ++ rev v).
  { rewrite <- rev_app_distr, <- Hv. now rewrite rev_involutive. }
  exists w1, (rev v). repeat split.
  - now rewrite <- E.
  - assumption.
  - now apply all_space_rev.
  - rewrite Er in *. simpl in *.
    destruct (rev r' ++ [d]) as [|x y] eqn:Ex.
    + destruct (rev r'); discriminate.
    + rewrite Et in E. simpl in E. injection E as <- _. exists c, y. auto.
  - rewrite Er. simpl. exists (rev r'), d. auto.
Qed.

Lemma trimEnd_nonspace s : ends_nonspace s -> trimEnd s = s.
Proof.
  intros (l & c & -> & Hc). unfold trimEnd.
  rewrite rev_app_distr. simpl. rewrite Hc. simpl.
  now rewrite rev_involutive.
Qed.

Lemma trim_fixed s : starts_nonspace s -> ends_nonspace s -> trim s = s.
Proof.
  intros H1 H2. unfold trim. rewrite (trimStart_nonspace s H1).
  now apply trimEnd_nonspace.
Qed.

Lemma trim_trimStart s : trim (trimStart s) = trim s.
Proof. unfold trim. now rewrite trimStart_idem. Qed.

Lemma trim_space_cons c s : is_space c = true -> trim (c :: s) = trim s.
Proof. intro H. unfold trim. simpl. now rewrite H. Qed.

(** Some code unit of a string that ends outside white space is the first
    outside white space. *)
Lemma first_nonspace s :
  non_blank s = true ->
  exists x c y, s = x ++ c :: y /\ all_space x /\ is_space c = false.
Proof.
  intro H. destruct (trimStart_split s) as (x & Hx & Fx).
  destruct (non_blank_trimStart s H) as (c & y & E & Hc).
  exists x, c, y. rewrite <- E. auto.
Qed.

Lemma ends_nonspace_non_blank s : ends_nonspace s -> non_blank s = true.
Proof.
  intros (l & c & -> & Hc). rewrite non_blank_app. simpl.
  rewrite Hc. simpl. apply orb_true_r.
Qed.

Lemma ends_nonspace_suffix u1 u2 :
  ends_nonspace (u1 ++ u2) -> u2 <> [] -> ends_nonspace u2.
Proof.
  intros (l & c & E & Hc) Hne.
  destruct (exists_last Hne) as (l2 & c2 & ->).
  rewrite app_assoc in E. apply app_inj_tail in E. destruct E as [_ ->].
  exists l2, c. auto.
Qed.

(* ================================================================== *)
(** ** One question/answer block *)

Lemma m_lit_i_cons upper p c s cs k :
  m (lit_i upper) (MState p (c :: s) cs) k
  = if letter_i upper c then k (MState (S p) s cs) else None.
Proof. reflexivity. Qed.

Lemma m_lit_cons x p c s cs k :
  m (lit x) (MState p (c :: s) cs) k
  = if (x =? c)%N then k (MState (S p) s cs) else None.
Proof. reflexivity. Qed.

Lemma next_question_boundary p t cs k :
  boundary t -> m next_question (MState p t cs) k = k (MState p t cs).
Proof.
  intros [->|(c & s & -> & Hc)].
  - reflexivity.
  - unfold next_question. cbn [m rest pos caps].
    rewrite m_lit_cons, N.eqb_refl, m_lit_i_cons, Hc, m_lit_cons, N.eqb_refl.
    reflexivity.
Qed.

Lemma next_question_inside p d s cs k :
  d <> LF -> m next_question (MState p (d :: s) cs) k = None.
Proof.
  intro H. unfold next_question. cbn [m rest pos caps].
  rewrite m_lit_cons. destruct (N.eqb_spec LF d); [congruence|]. reflexivity.
Qed.

Lemma starts_nonspace_stops t s : starts_nonspace t -> stops is_space (t ++ s).
Proof. intros (c & r & -> & Hc). exact Hc. Qed.

(** After the answer marker: white space is skipped, and the second group
    runs up to the boundary. *)
Lemma qa_tail_ok p v a2 t cs :
  all_space v -> starts_nonspace a2 -> ~ In LF a2 -> boundary t ->
  m qa_tail (MState p (v ++ a2 ++ t) cs) Some
  = Some (MState (p + length v + length a2) t ((2, a2) :: cs)).
Proof.
  intros Hv Ha Hlf Ht. unfold qa_tail. rewrite m_seq. unfold ws.
  rewrite m_star_greedy_chr. apply greedy_chr_app_some; [assumption|].
  rewrite greedy_chr_stop by (now apply starts_nonspace_stops).
  rewrite m_seq, m_group. unfold any. rewrite m_star_lazy_chr.
  cbn [pos rest]. rewrite lazy_chr_skip.
  - apply lazy_chr_here. cbn [pos rest set_cap caps].
    unfold set_cap. cbn [pos rest caps].
    fold next_question. rewrite next_question_boundary by assumption.
    replace (p + length v + length a2 - (p + length v)) with (length a2) by lia.
    rewrite firstn_app, firstn_all, Nat.sub_diag. simpl.
    now rewrite app_nil_r.
  - apply Forall_forall. reflexivity.
  - intros u1 u2 -> Hne. destruct u2 as [|d u2]; [congruence|].
    unfold set_cap. cbn [pos rest caps app]. fold next_question.
    apply next_question_inside.
    intros ->. apply Hlf. apply in_or_app. right. now left.
Qed.

Lemma letter_not_space upper c :
  upper = UPPER_Q \/ upper = UPPER_A ->
  letter_i upper c = true -> is_space c = false.
Proof.
  unfold letter_i. intros [->| ->] H; apply orb_true_iff in H;
    destruct H as [H|H]; apply N.eqb_eq in H; subst c; reflexivity.
Qed.

Lemma letter_Q_not_A c : letter_i UPPER_Q c = true -> letter_i UPPER_A c = false.
Proof.
  unfold letter_i. intro H; apply orb_true_iff in H;
    destruct H as [H|H]; apply N.eqb_eq in H; subst c; reflexivity.
Qed.

Lemma space_not_LF c : is_space c = false -> c <> LF.
Proof. intros H ->. discriminate. Qed.

Lemma qa_mid_k_not_LF p s cs k :
  match s with [] => True | d :: _ => d <> LF end ->
  m qa_mid_k (MState p s cs) k = None.
Proof.
  unfold qa_mid_k. rewrite m_seq. destruct s as [|d s]; [reflexivity|].
  intro H. rewrite m_lit_cons. destruct (N.eqb_spec LF d); [congruence|].
  reflexivity.
Qed.

(** After the first group, at the end of the question line: the white
    space and the line feed are skipped and the answer marker is read. *)
Lemma qa_mid_ok p w2 cA R cs res :
  all_space w2 -> letter_i UPPER_A cA = true ->
  m qa_tail (MState (p + length w2 + 3) R cs) Some = Some res ->
  m qa_mid (MState p (w2 ++ LF :: cA :: COLON :: R) cs) Some = Some res.
Proof.
  intros Hw HA H. unfold qa_mid. rewrite m_seq. unfold ws.
  rewrite m_star_greedy_chr. apply greedy_chr_app_some; [assumption|].
  cbn [greedy_chr]. change (is_space LF) with true. cbn iota.
  rewrite (letter_not_space UPPER_A cA) by auto.
  fold qa_mid_k. rewrite qa_mid_k_not_LF.
  2:{ apply space_not_LF. now apply (letter_not_space UPPER_A); auto. }
  cbn [or_else]. unfold qa_mid_k.
  rewrite m_seq, m_lit_cons, N.eqb_refl, m_seq, m_lit_i_cons, HA.
  rewrite m_seq, m_lit_cons, N.eqb_refl.
  now replace (S (S (S (p + length w2)))) with (p + length w2 + 3) by lia.
Qed.

(** After the first group, inside the question line: no line feed can be
    reached. *)
Lemma qa_mid_none p x c y cs k :
  all_space x -> ~ In LF x -> is_space c = false ->
  m qa_mid (MState p (x ++ c :: y) cs) k = None.
Proof.
  intros Hx Hlf Hc. unfold qa_mid. rewrite m_seq. unfold ws.
  rewrite m_star_greedy_chr. apply greedy_chr_none; [exact Hc|].
  intros w1 w2 ->. fold qa_mid_k. apply qa_mid_k_not_LF.
  destruct w2 as [|d w2]; simpl.
  - now apply space_not_LF.
  - intros ->. apply Hlf. apply in_or_app. right. now left.
Qed.

Lemma non_blank_false s : non_blank s = false -> all_space s.
Proof.
  induction s as [|c s IH]; simpl; intro H; [constructor|].
  apply orb_false_iff in H. destruct H as [Hc H].
  constructor; [now apply negb_false_iff in Hc|now apply IH].
Qed.

(** After the first group, on a line that is not followed by an answer
    marker: no match. *)
Lemma qa_mid_none_line p u t cs k :
  ~ In LF u -> boundary t ->
  m qa_mid (MState p (u ++ t) cs) k = None.
Proof.
  intros Hlf Ht. destruct (non_blank u) eqn:B.
  - destruct (first_nonspace u B) as (x & c & y & -> & Hx & Hc).
    rewrite <- app_assoc. cbn [app]. apply qa_mid_none; auto.
    intro H. apply Hlf. apply in_or_app. now left.
  - apply non_blank_false in B.
    unfold qa_mid. rewrite m_seq. unfold ws. rewrite m_star_greedy_chr.
    fold qa_mid_k.
    destruct Ht as [->|(c & s & -> & Hc)].
    + apply greedy_chr_none; [exact I|].
      intros w1 w2 ->. apply qa_mid_k_not_LF.
      destruct w2 as [|d w2]; simpl; [exact I|].
      intros ->. apply Hlf. apply in_or_app. right. now left.
    + change (u ++ LF :: c :: COLON :: s)
        with (u ++ [LF] ++ c :: COLON :: s).
      rewrite app_assoc. apply greedy_chr_none.
      * simpl. now apply (letter_not_space UPPER_Q); auto.
      * intros w1 w2 E. destruct w2 as [|d w2].
        -- apply qa_mid_k_not_LF. simpl. apply space_not_LF.
           now apply (letter_not_space UPPER_Q); auto.
        -- destruct (exists_last (l := d :: w2)) as (w2' & e & E2);
             [discriminate|].
           rewrite E2 in *. rewrite app_assoc in E.
           apply app_inj_tail in E. destruct E as [-> <-].
           destruct w2' as [|d' w2']; simpl in E2; injection E2 as -> E2.
           ++ unfold qa_mid_k. cbn [app].
              rewrite m_seq, m_lit_cons, N.eqb_refl, m_seq, m_lit_i_cons.
              now rewrite (letter_Q_not_A c Hc).
           ++ apply qa_mid_k_not_LF. simpl.
              intros ->. apply Hlf. apply in_or_app. right. now left.
Qed.

Lemma single_line_Forall s :
  single_line s = true ->
  Forall (fun c => negb (is_line_terminator c) = true) s.
Proof. intro H. apply Forall_forall. now apply forallb_forall. Qed.

Lemma single_line_no_LF s : single_line s = true -> ~ In LF s.
Proof.
  intros H Hin. unfold single_line in H.
  rewrite forallb_forall in H. specialize (H LF Hin). discriminate.
Qed.

Lemma single_line_app s t :
  single_line (s ++ t) = single_line s && single_line t.
Proof. apply forallb_app. Qed.

(** After the question marker, when the question has a code unit outside
    white space: the first group is the question without the white space
    around it. *)
Lemma qa_after_q_nonblank p w1 core w2 cA R cs res :
  all_space w1 -> starts_nonspace core -> ends_nonspace core ->
  single_line core = true -> all_space w2 -> letter_i UPPER_A cA = true ->
  m qa_tail (MState (p + length w1 + length core + length w2 + 3) R
                    ((1, core) :: cs)) Some = Some res ->
  m qa_after_q (MState p (w1 ++ core ++ w2 ++ LF :: cA :: COLON :: R) cs) Some
  = Some res.
Proof.
  intros Hw1 Hs He Hl Hw2 HA H.
  unfold qa_after_q. rewrite m_seq. unfold ws.
  rewrite m_star_greedy_chr. apply greedy_chr_app_some; [assumption|].
  rewrite greedy_chr_stop by (now apply starts_nonspace_stops).
  rewrite m_seq, m_group. unfold Plus. rewrite m_seq.
  destruct Hs as (c0 & core' & -> & Hc0). cbn [app].
  pose proof (single_line_Forall _ Hl) as Hd.
  inversion Hd as [|? ? Hd0 Hd']; subst.
  unfold dot. rewrite m_chr_cons, Hd0, m_star_lazy_chr.
  cbn [pos rest]. rewrite lazy_chr_skip.
  - apply lazy_chr_here. unfold set_cap. cbn [pos rest caps].
    replace (S (p + length w1) + length core' - (p + length w1))
      with (length (c0 :: core')) by (cbn [length]; lia).
    change (c0 :: core' ++ w2 ++ LF :: cA :: COLON :: R)
      with ((c0 :: core') ++ w2 ++ LF :: cA :: COLON :: R).
    rewrite firstn_app, firstn_all, Nat.sub_diag. cbn [firstn].
    rewrite app_nil_r. apply qa_mid_ok; auto.
    rewrite <- H. same_state.
  - assumption.
  - intros u1 u2 -> Hne. unfold set_cap. cbn [pos rest caps].
    assert (E : ends_nonspace u2).
    { apply (ends_nonspace_suffix (c0 :: u1) u2); assumption. }
    apply ends_nonspace_non_blank in E.
    destruct (first_nonspace u2 E) as (x & c & y & -> & Hx & Hc).
    rewrite <- app_assoc. cbn [app]. apply qa_mid_none; auto.
    intro Hin. apply (single_line_no_LF _ Hl).
    right. apply in_or_app. right. apply in_or_app. now left.
Qed.

(** After the question marker, when only white space follows on the line:
    the first group is the last white-space code unit of the line. *)
Lemma qa_after_q_blank p w c cA line t cs res :
  all_space (w ++ [c]) -> is_line_terminator c = false ->
  letter_i UPPER_A cA = true -> ~ In LF line -> boundary t ->
  m qa_tail (MState (p + length w + 4) (line ++ t) ((1, [c]) :: cs)) Some
  = Some res ->
  m qa_after_q
    (MState p (w ++ c :: LF :: cA :: COLON :: line ++ t) cs) Some
  = Some res.
Proof.
  intros Hw Hc HA Hlf Ht H.
  apply Forall_app in Hw. destruct Hw as [Hw Hc'].
  inversion Hc' as [|? ? Hcs _]; subst.
  pose proof (letter_not_space UPPER_A cA (or_intror eq_refl) HA) as HAs.
  unfold qa_after_q. rewrite m_seq. unfold ws.
  rewrite m_star_greedy_chr. apply greedy_chr_app_some; [assumption|].
  cbn [greedy_chr]. rewrite Hcs, HAs. change (is_space LF) with true.
  cbn iota.
  set (r1 := (Group 1 (Plus false dot);; qa_mid)%re).
  assert (N1 : m r1 (MState (S (S (p + length w)))
                            (cA :: COLON :: line ++ t) cs) Some = None).
  { unfold r1. rewrite m_seq, m_group. unfold Plus. rewrite m_seq.
    unfold dot. rewrite m_chr_cons.
    destruct (negb (is_line_terminator cA)); [|reflexivity].
    rewrite m_star_lazy_chr. cbn [pos rest].
    change (COLON :: line ++ t) with ((COLON :: line) ++ t).
    apply lazy_chr_none.
    - destruct Ht as [->|(d & s & -> & _)]; simpl; reflexivity || exact I.
    - intros u1 u2 E. unfold set_cap. cbn [pos rest caps].
      apply qa_mid_none_line; [|assumption].
      intro Hin. assert (Hin' : In LF (COLON :: line))
        by (rewrite E; apply in_or_app; now right).
      destruct Hin' as [Hin'|Hin']; [discriminate|contradiction]. }
  assert (N2 : m r1 (MState (S (p + length w))
                            (LF :: cA :: COLON :: line ++ t) cs) Some = None).
  { unfold r1. rewrite m_seq, m_group. unfold Plus. rewrite m_seq.
    unfold dot. rewrite m_chr_cons. reflexivity. }
  rewrite N1, N2. cbn [or_else].
  unfold r1. rewrite m_seq, m_group. unfold Plus. rewrite m_seq.
  unfold dot. rewrite m_chr_cons, Hc. cbn [negb].
  rewrite m_star_lazy_chr. apply lazy_chr_here.
  unfold set_cap. cbn [pos rest caps].
  replace (S (p + length w) - (p + length w)) with 1 by lia. cbn [firstn].
  apply (qa_mid_ok _ []); [constructor|assumption|].
  rewrite <- H. same_state.
Qed.

Lemma trim_blank s : all_space s -> trim s = [].
Proof.
  intro H. unfold trim.
  replace (trimStart s) with (@nil N); [reflexivity|].
  induction H as [|c s Hc _ IH]; simpl; [reflexivity|]. now rewrite Hc.
Qed.

Lemma join_lines_cons l : forall x,
  join_lines (x :: l) = x ++ flat_map (fun y => LF :: y) l.
Proof.
  induction l as [|y l IH]; intro x.
  - simpl. now rewrite app_nil_r.
  - change (join_lines (x :: y :: l)) with (x ++ [LF] ++ join_lines (y :: l)).
    rewrite IH. reflexivity.
Qed.

Lemma build_doc_cons qa qas :
  build_doc (qa :: qas) = qa_block qa ++ tail_doc qas.
Proof.
  unfold build_doc, tail_doc. cbn [map]. rewrite join_lines_cons.
  f_equal. induction qas as [|qb qas IH]; simpl; [reflexivity|].
  now rewrite IH.
Qed.

Lemma tail_doc_boundary qas : boundary (tail_doc qas).
Proof.
  destruct qas as [|qa qas]; [now left|right].
  simpl. eexists _, _. split; reflexivity.
Qed.

Lemma length_tail_doc qas : length qas <= length (tail_doc qas).
Proof.
  induction qas as [|qa qas IH]; simpl; [lia|].
  rewrite length_app. lia.
Qed.

(** One block, from its question marker on. *)
Lemma block_match p qa t :
  valid_pair qa = true -> boundary t ->
  exists g1 g2,
    trim g1 = trim (fst qa) /\ trim g2 = trim (snd qa) /\
    m qa_from_marker (MState p (qa_block qa ++ t) []) Some
    = Some (MState (p + length (qa_block qa)) t [(2, g2); (1, g1)]).
Proof.
  destruct qa as [q a]. unfold valid_pair. cbn [fst snd]. intros V Ht.
  apply andb_true_iff in V. destruct V as [V Hb].
  apply andb_true_iff in V. destruct V as [Hq Ha].
  (* the answer line *)
  destruct (trimStart_split (SP :: a)) as (v & Ev & Hv).
  assert (Hs2 : starts_nonspace (trimStart (SP :: a))).
  { apply non_blank_trimStart. simpl. exact Hb. }
  assert (Hlf2 : ~ In LF (trimStart (SP :: a))).
  { intro Hin. apply (single_line_no_LF _ Ha).
    assert (Hin' : In LF (SP :: a))
      by (rewrite Ev; apply in_or_app; now right).
    destruct Hin' as [Hin'|Hin']; [discriminate|assumption]. }
  assert (T2 : trim (trimStart (SP :: a)) = trim a).
  { rewrite trim_trimStart. now apply trim_space_cons. }
  assert (L2 : length (SP :: a) = length v + length (trimStart (SP :: a))).
  { rewrite Ev at 1. apply length_app. }
  set (a2 := trimStart (SP :: a)) in *.
  assert (Eblock : qa_block (q, a) ++ t
                   = UPPER_Q :: COLON :: (SP :: q) ++
                     LF :: UPPER_A :: COLON :: (SP :: a) ++ t).
  { unfold qa_block. cbn [fst snd]. cbn. rewrite <- !app_assoc. reflexivity. }
  assert (Lblock : length (qa_block (q, a)) = 7 + length q + length a).
  { unfold qa_block. cbn [fst snd]. rewrite !length_app. simpl. lia. }
  assert (Start : forall res,
    m qa_after_q (MState (p + 2)
      ((SP :: q) ++ LF :: UPPER_A :: COLON :: (SP :: a) ++ t) []) Some
    = Some res ->
    m qa_from_marker (MState p (qa_block (q, a) ++ t) []) Some = Some res).
  { intros res H. rewrite Eblock. unfold qa_from_marker.
    rewrite m_seq. unfold ws. rewrite m_star_greedy_chr.
    rewrite greedy_chr_stop by reflexivity.
    rewrite m_seq, m_lit_i_cons. change (letter_i UPPER_Q UPPER_Q) with true.
    cbn iota. rewrite m_seq, m_lit_cons, N.eqb_refl.
    now replace (S (S p)) with (p + 2) by lia. }
  exists (if non_blank q then trim q else [last (SP :: q) SP]), a2.
  destruct (non_blank q) eqn:Bq.
  - (* a question with a code unit outside white space *)
    split; [|split; [exact T2|]].
    + destruct (trim_split q Bq) as (x1 & x2 & _ & _ & _ & H1 & H2).
      now apply trim_fixed.
    + apply Start.
      destruct (trim_split (SP :: q)) as (w1 & w2 & E & Hw1 & Hw2 & S1 & E1);
        [exact Bq|].
      rewrite (trim_space_cons SP q eq_refl) in *.
      assert (L1 : length (SP :: q) = length w1 + length (trim q) + length w2).
      { rewrite E at 1. rewrite !length_app. lia. }
      rewrite E, <- !app_assoc.
      apply qa_after_q_nonblank; auto.
      * assert (S : single_line (SP :: q) = true) by exact Hq.
        rewrite E, !single_line_app in S.
        apply andb_true_iff in S. destruct S as [_ S].
        apply andb_true_iff in S. now destruct S as [S _].
      * rewrite Ev. rewrite <- app_assoc.
        rewrite qa_tail_ok by auto.
        f_equal. f_equal. cbn [length] in L1, L2. lia.
  - (* a blank question *)
    assert (Bq' : all_space (SP :: q)).
    { constructor; [reflexivity|]. now apply non_blank_false. }
    destruct (exists_last (l := SP :: q)) as (w & c & E); [discriminate|].
    assert (Hc : In c (SP :: q)) by (rewrite E; apply in_or_app; right; now left).
    assert (Hlt : is_line_terminator c = false).
    { destruct Hc as [<-|Hc]; [reflexivity|].
      unfold single_line in Hq. rewrite forallb_forall in Hq.
      apply negb_true_iff. now apply Hq. }
    assert (L1 : length (SP :: q) = length w + 1).
    { rewrite E, length_app. simpl. lia. }
    split; [|split; [exact T2|]].
    + rewrite (trim_blank q) by (now apply non_blank_false).
      rewrite E, last_last. apply trim_blank.
      constructor; [|constructor].
      rewrite E in Bq'. apply Forall_app in Bq'. destruct Bq' as [_ Bq'].
      now inversion Bq'.
    + apply Start. rewrite E at 1. rewrite E in Bq'. rewrite <- app_assoc.
      cbn [app].
      change (w ++ c :: LF :: UPPER_A :: COLON :: SP :: a ++ t)
        with (w ++ c :: LF :: UPPER_A :: COLON :: (SP :: a) ++ t).
      apply qa_after_q_blank; auto.
      * intros [Hin|Hin]; [discriminate|].
        now apply (single_line_no_LF _ Ha).
      * rewrite Ev. rewrite <- app_assoc.
        rewrite qa_tail_ok by auto.
        rewrite E, last_last.
        f_equal. f_equal. cbn [length] in L1, L2. lia.
Qed.

Lemma qa_regex_from_marker :
  qa_regex = (Alt Bol (lit LF) ;; qa_from_marker)%re.
Proof. reflexivity. Qed.

Lemma search_here r p s st :
  m r (MState p s []) Some = Some st -> search r p s = Some (p, st).
Proof. intro H. destruct s; simpl; now rewrite H. Qed.

(** The first block of a document matches at index 0. *)
Lemma qa_regex_first qa t :
  valid_pair qa = true -> boundary t ->
  exists g1 g2,
    trim g1 = trim (fst qa) /\ trim g2 = trim (snd qa) /\
    m qa_regex (MState 0 (qa_block qa ++ t) []) Some
    = Some (MState (length (qa_block qa)) t [(2, g2); (1, g1)]).
Proof.
  intros V Ht. destruct (block_match 0 qa t V Ht) as (g1 & g2 & T1 & T2 & H).
  exists g1, g2. split; [assumption|]. split; [assumption|].
  rewrite qa_regex_from_marker, m_seq. cbn [m pos Nat.eqb].
  now rewrite H.
Qed.

(** A later block matches from the line feed before it. *)
Lemma qa_regex_next p qa t :
  0 < p -> valid_pair qa = true -> boundary t ->
  exists g1 g2,
    trim g1 = trim (fst qa) /\ trim g2 = trim (snd qa) /\
    m qa_regex (MState p (LF :: qa_block qa ++ t) []) Some
    = Some (MState (S p + length (qa_block qa)) t [(2, g2); (1, g1)]).
Proof.
  intros Hp V Ht.
  destruct (block_match (S p) qa t V Ht) as (g1 & g2 & T1 & T2 & H).
  exists g1, g2. split; [assumption|]. split; [assumption|].
  rewrite qa_regex_from_marker, m_seq.
  change (m (Alt Bol (lit LF)) ?st ?k) with (or_else (m Bol st k) (m (lit LF) st k)).
  cbn [m pos]. destruct p; [lia|]. cbn [Nat.eqb or_else rest caps].
  unfold lit. cbn [m rest pos caps]. rewrite N.eqb_refl. exact H.
Qed.

Lemma qa_regex_at_end p : 0 < p -> search qa_regex p [] = None.
Proof. destruct p; [lia|]. reflexivity. Qed.

(** The loop of [parseStructuredQA] over the blocks that follow the first
    one. *)
Lemma qa_loop_tail : forall qas fuel p,
  length qas < fuel -> 0 < p -> forallb valid_pair qas = true ->
  qa_loop fuel p (tail_doc qas) = Some (map entry_of qas).
Proof.
  induction qas as [|qa qas IH]; intros [|f] p L Hp V; try (simpl in L; lia).
  - simpl tail_doc. cbn [qa_loop]. now rewrite qa_regex_at_end.
  - cbn [forallb] in V. apply andb_true_iff in V. destruct V as [V Vs].
    change (tail_doc (qa :: qas)) with (LF :: qa_block qa ++ tail_doc qas).
    destruct (qa_regex_next p qa (tail_doc qas) Hp V (tail_doc_boundary qas))
      as (g1 & g2 & T1 & T2 & H).
    cbn [qa_loop]. rewrite (search_here _ _ _ _ H).
    cbn [pos rest]. rewrite IH; [|simpl in L; lia|lia|assumption].
    unfold group, get_cap. cbn [caps lookup_cap Nat.eqb].
    rewrite T1, T2. reflexivity.
Qed.

(* ================================================================== *)
(** ** The round trip *)

(** C6, at a blank answer that is not the last one: the answer is not
    empty, is on one line and has no marker, yet the white space skipped
    after its marker runs over the line feed before the next question
    marker, and the second block ends up in the answer of the first: two
    blocks give one entry.  The same blank answer at the end of the text,
    and a blank question, give the entries the round trip promises. *)
Theorem roundtrip_blank_answer :
  forallb claimed_pair [(str "q1", str " "); (str "q2", str "a2")] = true /\
  build_doc [(str "q1", str " "); (str "q2", str "a2")]
  = str "Q: q1" ++ [LF] ++ str "A:  " ++ [LF] ++ str "Q: q2" ++ [LF]
    ++ str "A: a2" /\
  parseStructuredQA (build_doc [(str "q1", str " "); (str "q2", str "a2")])
  = [Entry (str "q1") (str "Q: q2" ++ [LF] ++ str "A: a2") [str "q1"]] /\
  length (parseStructuredQA
            (build_doc [(str "q1", str " "); (str "q2", str "a2")]))
  <> length [(str "q1", str " "); (str "q2", str "a2")] /\
  parseStructuredQA (build_doc [(str "q1", str "a1"); (str "q2", str " ")])
  = map entry_of [(str "q1", str "a1"); (str "q2", str " ")] /\
  parseStructuredQA (build_doc [(str " ", str "a1"); (str "q2", str "a2")])
  = map entry_of [(str " ", str "a1"); (str "q2", str "a2")].
Proof.
  repeat split; try (vm_compute; reflexivity).
  vm_compute. discriminate.
Qed.

(** X20: for every sequence of questions and answers, each on one
    line and each answer with a code unit outside white space, the
    structured parse of the document built from their blocks gives as many
    entries, in order, whose labels and bodies are the questions and answers
    trimmed. *)
Theorem roundtrip (qas : list (jsstring * jsstring)) :
  forallb valid_pair qas = true ->
  parseStructuredQA (build_doc qas) = map entry_of qas /\
  length (parseStructuredQA (build_doc qas)) = length qas.
Proof.
  intro V.
  assert (E : parseStructuredQA (build_doc qas) = map entry_of qas).
  { destruct qas as [|qa qas]; [reflexivity|].
    cbn [forallb] in V. apply andb_true_iff in V. destruct V as [V Vs].
    unfold parseStructuredQA. rewrite build_doc_cons.
    destruct (qa_regex_first qa (tail_doc qas) V (tail_doc_boundary qas))
      as (g1 & g2 & T1 & T2 & H).
    cbn [qa_loop]. rewrite (search_here _ _ _ _ H). cbn [pos rest].
    assert (Lb : 7 <= length (qa_block qa)).
    { unfold qa_block. rewrite !length_app. simpl. lia. }
    rewrite qa_loop_tail.
    - unfold group, get_cap. cbn [caps lookup_cap Nat.eqb].
      rewrite T1, T2. reflexivity.
    - rewrite length_app. pose proof (length_tail_doc qas). lia.
    - lia.
    - assumption. }
  split; [assumption|]. rewrite E. apply length_map.
Qed.

Lemma roundtrip_witness :
  parseStructuredQA
    (build_doc [(str "What is a CAB?", str "A board."); (str " ", str "x")])
  = map entry_of [(str "What is a CAB?", str "A board."); (str " ", str "x")] /\
  length (parseStructuredQA
    (build_doc [(str "What is a CAB?", str "A board."); (str " ", str "x")]))
  = length [(str "What is a CAB?", str "A board."); (str " ", str "x")].
Proof.
  apply (roundtrip [(str "What is a CAB?", str "A board."); (str " ", str "x")]).
  vm_compute. reflexivity.
Defined.

(* ================================================================== *)
(** ** Leading white space before the markers *)

(** C3, at a document whose markers are indented: white space before the
    question marker is accepted, white space before the answer marker is
    not, and an indented question marker does not end the answer before
    it. *)
Theorem indented_answer_marker_rejected :
  parseStructuredQA (str "  q: What?" ++ [LF] ++ str "a: Yes.")
  = [Entry (str "What?") (str "Yes.") [str "What?"]] /\
  parseStructuredQA (str "  Q: What?" ++ [LF] ++ str "  A: Yes.") = [] /\
  parseStructuredQA (str " Q: c" ++ [LF] ++ str "A: d")
  = [Entry (str "c") (str "d") [str "c"]] /\
  parseStructuredQA
    (str "Q: a" ++ [LF] ++ str "A: b" ++ [LF] ++ str " Q: c" ++ [LF] ++ str "A: d")
  = [Entry (str "a") (str "b" ++ [LF] ++ str " Q: c" ++ [LF] ++ str "A: d")
           [str "a"]].
Proof. repeat split; vm_compute; reflexivity. Qed.

(* ================================================================== *)
(** ** Normalisation *)

Lemma alnum_not_space c : is_lower_alnum c = true -> is_space c = false.
Proof.
  unfold is_lower_alnum, is_space. intro H.
  rewrite orb_true_iff, !andb_true_iff, !N.leb_le in H.
  repeat rewrite orb_false_iff. repeat rewrite andb_false_iff.
  repeat rewrite N.leb_gt. repeat rewrite N.eqb_neq. lia.
Qed.

Lemma norm_char_cases c :
  is_norm_char c = true -> c = SP \/ (is_lower_alnum c = true /\ is_space c = false).
Proof.
  unfold is_norm_char. intro H. apply orb_true_iff in H.
  destruct H as [H|H].
  - right. split; [assumption|now apply alnum_not_space].
  - left. now apply N.eqb_eq.
Qed.

Lemma norm_char_space c : is_norm_char c = true -> is_space c = (c =? SP)%N.
Proof.
  intro H. destruct (norm_char_cases c H) as [->|[H1 H2]]; [reflexivity|].
  rewrite H2. symmetry. apply N.eqb_neq. intros ->. discriminate.
Qed.

Lemma replace_non_alnum_chars s :
  Forall (fun c => is_lower_alnum c || is_space c = true) (replace_non_alnum s).
Proof.
  unfold replace_non_alnum. apply Forall_forall. intros c H.
  apply in_map_iff in H. destruct H as (d & <- & _).
  destruct (is_lower_alnum d || is_space d) eqn:E; [assumption|reflexivity].
Qed.

Lemma collapse_aux_shape s : forall b,
  Forall (fun c => is_lower_alnum c || is_space c = true) s ->
  Forall (fun c => is_norm_char c = true) (collapse_aux b s) /\
  no_double_sp (collapse_aux b s) = true /\
  (b = true -> starts_with [SP] (collapse_aux b s) = false).
Proof.
  induction s as [|c s IH]; intros b H; cbn [collapse_aux].
  - repeat split; auto.
  - inversion H as [|? ? Hc Hs]; subst.
    destruct (is_space c) eqn:E.
    + destruct b.
      * apply IH. assumption.
      * destruct (IH true Hs) as (F & D & S). specialize (S eq_refl).
        split; [constructor; [reflexivity|assumption]|]. split; [|discriminate].
        cbn [no_double_sp]. destruct (collapse_aux true s) as [|d r] eqn:Ec;
          [reflexivity|].
        rewrite D, andb_true_r. cbn [starts_with] in S.
        rewrite andb_true_r, N.eqb_sym in S. rewrite S. reflexivity.
    + destruct (IH false Hs) as (F & D & _).
      rewrite orb_false_r in Hc.
      assert (Nc : (c =? SP)%N = false).
      { apply N.eqb_neq. intros ->. discriminate. }
      split; [constructor; [unfold is_norm_char; now rewrite Hc|assumption]|].
      split.
      * cbn [no_double_sp]. destruct (collapse_aux false s); [reflexivity|].
        now rewrite Nc, D.
      * intros _. cbn [starts_with]. rewrite N.eqb_sym, Nc. reflexivity.
Qed.

Lemma no_double_sp_includes s :
  no_double_sp s = true -> includes s [SP; SP] = false.
Proof.
  induction s as [|c s IH]; intro H; [reflexivity|].
  cbn [includes]. cbn [no_double_sp] in H.
  destruct s as [|d r].
  - cbn. now rewrite andb_false_r.
  - apply andb_true_iff in H. destruct H as [H1 H2].
    rewrite (IH H2), orb_false_r. cbn [starts_with].
    apply negb_true_iff in H1. rewrite (N.eqb_sym SP c), (N.eqb_sym SP d).
    destruct (c =? SP)%N; [|reflexivity]. simpl in H1. now rewrite H1.
Qed.

(** Properties a substring inherits. *)
Lemma includes_sub s l x r t :
  s = l ++ x ++ r -> includes s t = false -> includes x t = false.
Proof.
  intros -> H. destruct (includes x t) eqn:E; [|reflexivity].
  apply includes_spec in E. destruct E as (l' & r' & ->).
  assert (includes (l ++ (l' ++ t ++ r') ++ r) t = true).
  { apply includes_spec. exists (l ++ l'), (r' ++ r).
    now rewrite <- !app_assoc. }
  congruence.
Qed.

Lemma trim_sub s : exists w1 w2, s = w1 ++ trim s ++ w2.
Proof.
  destruct (non_blank s) eqn:B.
  - destruct (trim_split s B) as (w1 & w2 & E & _). eauto.
  - rewrite (trim_blank s) by (now apply non_blank_false).
    exists [], s. reflexivity.
Qed.

Lemma trim_ends s :
  trim s = [] \/ (starts_nonspace (trim s) /\ ends_nonspace (trim s)).
Proof.
  destruct (non_blank s) eqn:B.
  - right. destruct (trim_split s B) as (w1 & w2 & _ & _ & _ & H1 & H2). auto.
  - left. apply trim_blank. now apply non_blank_false.
Qed.

Lemma ends_nonspace_rev s : ends_nonspace s -> starts_nonspace (rev s).
Proof.
  intros (l & c & -> & H). rewrite rev_app_distr. simpl. exists c, (rev l). auto.
Qed.

Lemma starts_nonspace_no_sp s : starts_nonspace s -> starts_with [SP] s = false.
Proof.
  intros (c & r & -> & H). cbn [starts_with]. rewrite andb_true_r.
  apply N.eqb_neq. intros <-. discriminate.
Qed.

(** [normalize] always gives a string of the normalized shape. *)
Lemma normalize_is_normal (s : jsstring) : normal (normalize s).
Proof.
  unfold normalize, collapse_spaces.
  destruct (collapse_aux_shape (replace_non_alnum (toLowerCase s)) false
              (replace_non_alnum_chars _)) as (F & D & _).
  set (c := collapse_aux false (replace_non_alnum (toLowerCase s))) in *.
  destruct (trim_sub c) as (w1 & w2 & E).
  unfold normal. split; [|split].
  - rewrite E in F. apply Forall_app in F. destruct F as [_ F].
    apply Forall_app in F. now destruct F as [F _].
  - apply (includes_sub c w1 (trim c) w2 _ E). now apply no_double_sp_includes.
  - destruct (trim_ends c) as [->|[H1 H2]]; [split; reflexivity|].
    split; [now apply starts_nonspace_no_sp|].
    apply starts_nonspace_no_sp. now apply ends_nonspace_rev.
Qed.

Lemma lower_unit_norm c : is_norm_char c = true -> lower_unit c = [c].
Proof.
  unfold is_norm_char, is_lower_alnum, lower_unit, SP. intro H.
  rewrite !orb_true_iff, !andb_true_iff, !N.leb_le, N.eqb_eq in H.
  destruct ((65 <=? c)%N && (c <=? 90)%N) eqn:E1.
  { apply andb_true_iff in E1. rewrite !N.leb_le in E1. lia. }
  destruct (N.eqb_spec c 304); [lia|].
  destruct (N.eqb_spec c 8490); [lia|]. reflexivity.
Qed.

Lemma toLowerCase_norm s :
  Forall (fun c => is_norm_char c = true) s -> toLowerCase s = s.
Proof.
  induction 1 as [|c s Hc _ IH]; [reflexivity|].
  unfold toLowerCase in *. cbn [flat_map]. rewrite IH, lower_unit_norm by assumption.
  reflexivity.
Qed.

Lemma replace_non_alnum_norm s :
  Forall (fun c => is_norm_char c = true) s -> replace_non_alnum s = s.
Proof.
  induction 1 as [|c s Hc _ IH]; [reflexivity|].
  unfold replace_non_alnum in *. cbn [map]. rewrite IH.
  destruct (norm_char_cases c Hc) as [->|[H _]]; [reflexivity|].
  now rewrite H.
Qed.

Lemma collapse_aux_norm s : forall b,
  Forall (fun c => is_norm_char c = true) s ->
  no_double_sp s = true ->
  (b = true -> starts_with [SP] s = false) ->
  collapse_aux b s = s.
Proof.
  induction s as [|c s IH]; intros b F D S; [reflexivity|].
  inversion F as [|? ? Hc Fs]; subst. cbn [collapse_aux].
  assert (Ds : no_double_sp s = true).
  { cbn [no_double_sp] in D. destruct s; [reflexivity|].
    now apply andb_true_iff in D. }
  rewrite (norm_char_space c Hc).
  destruct (N.eqb_spec c SP) as [->|Nc].
  - destruct b.
    + specialize (S eq_refl). discriminate.
    + f_equal. apply IH; auto. intros _.
      cbn [no_double_sp] in D. destruct s as [|d r]; [reflexivity|].
      apply andb_true_iff in D. destruct D as [D _].
      cbn [starts_with]. rewrite andb_true_r.
      rewrite N.eqb_refl in D. simpl in D. apply negb_true_iff in D.
      now rewrite N.eqb_sym.
  - f_equal. apply IH; auto. discriminate.
Qed.

Lemma includes_no_double_sp s :
  includes s [SP; SP] = false -> no_double_sp s = true.
Proof.
  induction s as [|c s IH]; intro H; [reflexivity|].
  cbn [includes] in H. apply orb_false_iff in H. destruct H as [H1 H2].
  cbn [no_double_sp]. destruct s as [|d r]; [reflexivity|].
  rewrite (IH H2), andb_true_r. cbn [starts_with] in H1.
  rewrite andb_true_r in H1. rewrite (N.eqb_sym c), (N.eqb_sym d).
  now rewrite H1.
Qed.

Lemma norm_nonsp_nonspace c :
  is_norm_char c = true -> (SP =? c)%N = false -> is_space c = false.
Proof.
  intros H N. rewrite (norm_char_space c H). now rewrite N.eqb_sym.
Qed.

Lemma trim_norm s : normal s -> trim s = s.
Proof.
  intros (F & _ & S1 & S2). destruct s as [|c s]; [reflexivity|].
  apply trim_fixed.
  - exists c, s. split; [reflexivity|].
    inversion F; subst. cbn [starts_with] in S1. rewrite andb_true_r in S1.
    now apply norm_nonsp_nonspace.
  - destruct (exists_last (l := c :: s)) as (l & d & E); [discriminate|].
    rewrite E in *. exists l, d. split; [reflexivity|].
    rewrite rev_app_distr in S2. cbn [rev app starts_with] in S2.
    rewrite andb_true_r in S2.
    apply Forall_app in F. destruct F as [_ F]. inversion F; subst.
    now apply norm_nonsp_nonspace.
Qed.

(** A string of the normalized shape is left as it is. *)
Lemma normalize_fixed s : normal s -> normalize s = s.
Proof.
  intros N. pose proof N as (F & D & S1 & S2). unfold normalize, collapse_spaces.
  rewrite toLowerCase_norm, replace_non_alnum_norm by assumption.
  rewrite collapse_aux_norm;
    [now apply trim_norm|assumption|now apply includes_no_double_sp
    |discriminate].
Qed.

(** X1: [normalize] gives a string made of [a-z0-9] and single spaces,
    with no space at either end, and leaves such a string as it is: it is
    idempotent. *)
Theorem normalize_normal_form (s : jsstring) :
  normal (normalize s) /\ normalize (normalize s) = normalize s.
Proof.
  pose proof (normalize_is_normal s) as N.
  split; [exact N|]. now apply normalize_fixed.
Qed.

(* ================================================================== *)
(** ** Words and hits *)

Lemma split_sp_aux_pieces s : forall cur w,
  In w (split_sp_aux cur s) -> ~ In SP cur ->
  ~ In SP w /\ forall c, In c w -> In c cur \/ In c s.
Proof.
  induction s as [|c s IH]; intros cur w H Hc; cbn [split_sp_aux] in H.
  - destruct H as [<-|[]]. split.
    + intro H. apply Hc. now apply in_rev.
    + intros d Hd. left. now apply in_rev.
  - destruct (N.eqb_spec c SP) as [->|Nc].
    + destruct H as [<-|H].
      * split; [intro H; apply Hc; now apply in_rev|].
        intros d Hd. left. now apply in_rev.
      * destruct (IH [] w H) as [H1 H2]; [auto|].
        split; [assumption|]. intros d Hd.
        destruct (H2 d Hd) as [[]|H3]. right. now right.
    + destruct (IH (c :: cur) w H) as [H1 H2].
      * intros [E|E]; [congruence|contradiction].
      * split; [assumption|]. intros d Hd.
        destruct (H2 d Hd) as [[<-|H3]|H3]; [right; now left|now left|].
        right. now right.
Qed.

(** The words of a string (the pieces of its normalized form) are not
    empty and are made of [a-z0-9]. *)
Lemma words_of_shape p w :
  In w (words_of p) ->
  w <> [] /\ ~ In SP w /\ Forall (fun c => is_lower_alnum c = true) w.
Proof.
  unfold words_of, filter_Boolean, split_sp. intro H.
  apply filter_In in H. destruct H as [H Hn].
  destruct (split_sp_aux_pieces _ _ _ H) as [H1 H2]; [auto|].
  split; [destruct w; [discriminate|discriminate]|]. split; [assumption|].
  apply Forall_forall. intros c Hc.
  destruct (H2 c Hc) as [[]|H3].
  destruct (normalize_is_normal p) as (F & _).
  rewrite Forall_forall in F. specialize (F c H3).
  destruct (norm_char_cases c F) as [->|[H4 _]]; [contradiction|assumption].
Qed.

Lemma split_sp_aux_padded s : forall cur w,
  In w (split_sp_aux cur s) ->
  exists l r, [SP] ++ (rev cur ++ s) ++ [SP] = l ++ [SP] ++ w ++ [SP] ++ r.
Proof.
  induction s as [|c s IH]; intros cur w H; cbn [split_sp_aux] in H.
  - destruct H as [<-|[]]. exists [], []. now rewrite app_nil_r.
  - destruct (N.eqb_spec c SP) as [->|Nc].
    + destruct H as [<-|H].
      * exists [], (s ++ [SP]). simpl. now rewrite <- !app_assoc.
      * destruct (IH [] w H) as (l & r & E). simpl in E.
        exists (SP :: rev cur ++ l), r. simpl. rewrite <- !app_assoc.
        simpl. f_equal. f_equal. exact E.
    + destruct (IH (c :: cur) w H) as (l & r & E).
      exists l, r. rewrite <- E. simpl. now rewrite <- !app_assoc.
Qed.

(** A word of the query is a hit. *)
Lemma word_is_hit user w :
  In w (words_of user) -> is_hit (padded user) w = true.
Proof.
  unfold words_of, filter_Boolean, split_sp. intro H.
  apply filter_In in H. destruct H as [H _].
  apply split_sp_aux_padded in H. destruct H as (l & r & E).
  unfold is_hit, padded. apply includes_spec. exists l, r.
  simpl in E. simpl. rewrite E. f_equal. simpl.
  now rewrite <- app_assoc.
Qed.

(** X2: for a word of a pattern, being counted as a hit is being one of the
    words of the query. *)
Theorem hit_iff_word (user p w : jsstring) :
  In w (words_of p) ->
  (is_hit (padded user) w = true <-> In w (words_of user)).
Proof.
  intro H. destruct (words_of_shape p w H) as (H1 & H2 & _). split.
  - now apply hit_is_word.
  - apply word_is_hit.
Qed.

Lemma hit_iff_word_witness :
  is_hit (padded (str "my cat")) (str "cat") = true
  <-> In (str "cat") (words_of (str "my cat")).
Proof.
  apply (hit_iff_word (str "my cat") (str "the cat") (str "cat")).
  vm_compute. right. left. reflexivity.
Defined.

(* ================================================================== *)
(** ** The score as a maximum *)

Lemma max_cases a b : JsNumber.max a b = a \/ JsNumber.max a b = b.
Proof.
  destruct a as [|x], b as [|y]; simpl; auto.
  destruct (Qlt_le_dec x y); auto.
Qed.

Lemma max_nan a b : JsNumber.max a b = NaN -> a = NaN \/ b = NaN.
Proof.
  destruct a as [|x], b as [|y]; simpl; auto.
  destruct (Qlt_le_dec x y); discriminate.
Qed.

Lemma coverage_nan u p : coverage u p = NaN <-> words_of p = [].
Proof.
  unfold coverage. destruct (words_of p) as [|w ws]; simpl; split;
    auto; discriminate.
Qed.

Lemma score_loop_nan_inv u ps : forall best,
  score_loop u best ps = NaN ->
  best = NaN \/ Exists (fun p => words_of p = []) ps.
Proof.
  induction ps as [|p ps IH]; intros best H; simpl in H; [now left|].
  destruct (IH _ H) as [E|E].
  - apply max_nan in E. destruct E as [E|E]; [now left|].
    right. constructor. now apply (proj1 (coverage_nan u p)).
  - right. now constructor 2.
Qed.

Lemma score_loop_cases u ps : forall best,
  score_loop u best ps = best \/
  exists p, In p ps /\ score_loop u best ps = coverage u p.
Proof.
  induction ps as [|p ps IH]; intros best; simpl; [now left|].
  destruct (IH (JsNumber.max best (coverage u p))) as [E|(p' & Hin & E)].
  - rewrite E. destruct (max_cases best (coverage u p)) as [->| ->]; [now left|].
    right. exists p. auto.
  - right. exists p'. auto.
Qed.

Lemma gt_max_l c a b : gt c (JsNumber.max a b) = true -> gt c a = true.
Proof.
  destruct a as [|x], b as [|y], c as [|z]; simpl; try discriminate.
  destruct (Qlt_le_dec x y); simpl; destruct (Qlt_le_dec x z);
    destruct (Qlt_le_dec y z); try discriminate; auto; lra.
Qed.

Lemma gt_max_r c a b : gt c (JsNumber.max a b) = true -> gt c b = true.
Proof.
  destruct a as [|x], b as [|y], c as [|z]; simpl; try discriminate.
  destruct (Qlt_le_dec x y); simpl; destruct (Qlt_le_dec x z);
    destruct (Qlt_le_dec y z); try discriminate; auto; lra.
Qed.

Lemma score_loop_upper u ps : forall best c,
  gt c (score_loop u best ps) = true ->
  gt c best = true /\ forall p, In p ps -> gt c (coverage u p) = true.
Proof.
  induction ps as [|p ps IH]; intros best c H; simpl in H.
  - split; [assumption|contradiction].
  - destruct (IH _ _ H) as [H1 H2]. split; [now apply gt_max_l in H1|].
    intros p' [<-|Hin]; [now apply gt_max_r in H1|auto].
Qed.

Lemma gt_irrefl a : gt a a = false.
Proof. destruct a as [|x]; [reflexivity|]. apply gt_num_false. lra. Qed.

Lemma scoreMatch_nan_exists user ps :
  scoreMatch user ps = NaN <-> Exists (fun p => words_of p = []) ps.
Proof.
  split.
  - intro H. apply score_loop_nan_inv in H.
    destruct H as [H|H]; [discriminate|assumption].
  - intro H. apply Exists_exists in H. destruct H as (p & Hin & Hw).
    now apply (score_loop_zero_words _ _ _ p).
Qed.

Lemma scoreMatch_num_range user ps x :
  scoreMatch user ps = Num x -> (0 <= x <= 1)%Q.
Proof.
  intro H.
  assert (R : in_unit_interval (scoreMatch user ps)).
  { apply scoreMatch_range. apply Forall_forall. intros p Hin Hw.
    assert (N : scoreMatch user ps = NaN)
      by (apply scoreMatch_nan_exists, Exists_exists; eauto).
    congruence. }
  now rewrite H in R.
Qed.

(** X3: [scoreMatch] returns NaN exactly when some pattern has no word, and
    a number of [0,1] otherwise. *)
Theorem scoreMatch_NaN_iff (user : jsstring) (ps : list jsstring) :
  (scoreMatch user ps = NaN <-> Exists (fun p => words_of p = []) ps) /\
  (scoreMatch user ps = NaN \/ in_unit_interval (scoreMatch user ps)).
Proof.
  split; [apply scoreMatch_nan_exists|].
  destruct (scoreMatch user ps) as [|x] eqn:E; [now left|right].
  apply scoreMatch_num_range in E. exact E.
Qed.

Lemma coverage_le_score user ps p :
  In p ps -> gt (coverage (padded user) p) (scoreMatch user ps) = false.
Proof.
  intro Hin.
  destruct (gt (coverage (padded user) p) (scoreMatch user ps)) eqn:G;
    [|reflexivity].
  unfold scoreMatch in G. apply score_loop_upper in G.
  destruct G as [_ G]. specialize (G p Hin).
  rewrite gt_irrefl in G. discriminate.
Qed.

(** X4: the score is the greatest coverage: it is 0 or the coverage of one
    of the patterns, and no pattern has a greater coverage. *)
Theorem scoreMatch_is_max (user : jsstring) (ps : list jsstring) :
  (scoreMatch user ps = Num 0 \/
   exists p, In p ps /\ scoreMatch user ps = coverage (padded user) p) /\
  forall p, In p ps ->
    gt (coverage (padded user) p) (scoreMatch user ps) = false.
Proof.
  split; [apply score_loop_cases|].
  intros p Hin. now apply coverage_le_score.
Qed.

Lemma filter_none {A} (f : A -> bool) l :
  (forall x, In x l -> f x = false) -> filter f l = [].
Proof.
  induction l as [|x l IH]; intro H; simpl; [reflexivity|].
  rewrite (H x) by (now left). apply IH. intros y Hy. apply H. now right.
Qed.

Lemma no_shared_word_hits user p :
  shares_word user p = false -> hits (padded user) (words_of p) = 0.
Proof.
  intro H. unfold hits.
  replace (filter (is_hit (padded user)) (words_of p)) with (@nil jsstring);
    [reflexivity|].
  symmetry. apply filter_none. intros w Hw.
  destruct (is_hit (padded user) w) eqn:E; [|reflexivity].
  destruct (words_of_shape p w Hw) as (H1 & H2 & _).
  apply hit_is_word in E; [|assumption|assumption].
  assert (shares_word user p = true).
  { apply existsb_exists. exists w. split; [assumption|].
    apply existsb_exists. exists w. split; [assumption|now apply eqb_eq]. }
  congruence.
Qed.

Lemma no_shared_word_coverage user p :
  shares_word user p = false ->
  coverage (padded user) p = NaN \/
  exists n, coverage (padded user) p = Num (0 # n).
Proof.
  intro H. unfold coverage. rewrite (no_shared_word_hits _ _ H).
  destruct (length (words_of p)); simpl; eauto.
Qed.

Lemma max_zero_l n : JsNumber.max (Num 0) (Num (0 # n)) = Num 0.
Proof.
  simpl. destruct (Qlt_le_dec 0 (0 # n)) as [L|L]; [|reflexivity].
  unfold Qlt in L. simpl in L. lia.
Qed.

Lemma score_loop_no_shared user ps :
  Forall (fun p => shares_word user p = false) ps ->
  score_loop (padded user) (Num 0) ps = Num 0 \/
  score_loop (padded user) (Num 0) ps = NaN.
Proof.
  induction 1 as [|p ps Hp _ IH]; cbn [score_loop]; [now left|].
  destruct (no_shared_word_coverage _ _ Hp) as [->|(n & ->)].
  - right. cbn [JsNumber.max]. apply score_loop_nan.
  - now rewrite max_zero_l.
Qed.

(** X5: a query that shares no word with any pattern scores exactly 0
    (or NaN when some pattern has no word). *)
Theorem scoreMatch_no_shared_word (user : jsstring) (ps : list jsstring) :
  Forall (fun p => shares_word user p = false) ps ->
  scoreMatch user ps = (if existsb (fun p => negb (nonempty_list (words_of p))) ps
                        then NaN else Num 0).
Proof.
  intro H. destruct (score_loop_no_shared user ps H) as [E|E];
    fold (scoreMatch user ps) in E; rewrite E.
  - destruct (existsb _ ps) eqn:X; [|reflexivity].
    apply existsb_exists in X. destruct X as (p & Hin & Hp).
    assert (N : scoreMatch user ps = NaN).
    { apply (score_loop_zero_words _ _ _ p); [assumption|].
      destruct (words_of p); [reflexivity|discriminate]. }
    congruence.
  - destruct (existsb _ ps) eqn:X; [reflexivity|].
    apply scoreMatch_nan_exists in E.
    apply Exists_exists in E. destruct E as (p & Hin & Hp).
    assert (existsb (fun p => negb (nonempty_list (words_of p))) ps = true).
    { apply existsb_exists. exists p. split; [assumption|]. now rewrite Hp. }
    congruence.
Qed.

Lemma scoreMatch_no_shared_word_witness :
  scoreMatch (str "banana") [str "What is a CAB?"]
  = (if existsb (fun p => negb (nonempty_list (words_of p)))
                [str "What is a CAB?"]
     then NaN else Num 0).
Proof.
  apply (scoreMatch_no_shared_word (str "banana") [str "What is a CAB?"]).
  apply Forall_cons; [vm_compute; reflexivity|apply Forall_nil].
Defined.

(** X6: when the query shares no word with any pattern of any entry, in
    particular when the query has no word at all, [getAnswer] keeps nothing
    and asks to rephrase. *)
Theorem no_shared_word_low_confidence (txt : jsstring) (FAQ : list entry) :
  Forall (fun e => Forall (fun p => shares_word txt p = false) (patterns e))
         FAQ ->
  bestMatch txt FAQ = Best (-1) (Num 0) /\ getAnswer txt FAQ = LowConfidence.
Proof.
  intro H.
  assert (B : bestMatch txt FAQ = Best (-1) (Num 0)).
  { unfold bestMatch.
    destruct (best_loop_cases txt FAQ 0 (Best (-1) (Num 0)) 0 eq_refl)
      as [[E _]|(j & e & Hn & _ & _ & Hg & _)]; [assumption|].
    apply nth_error_In in Hn. rewrite Forall_forall in H.
    destruct (score_loop_no_shared txt (patterns e) (H e Hn)) as [E|E];
      fold (scoreMatch txt (patterns e)) in E; rewrite E in Hg;
      discriminate. }
  split; [assumption|]. unfold getAnswer. rewrite B. reflexivity.
Qed.

Lemma no_shared_word_low_confidence_witness :
  bestMatch (str "banana spaceship") sample_kb = Best (-1) (Num 0) /\
  getAnswer (str "banana spaceship") sample_kb = LowConfidence.
Proof.
  apply (no_shared_word_low_confidence (str "banana spaceship") sample_kb).
  repeat first [apply Forall_nil | apply Forall_cons];
    vm_compute; reflexivity.
Defined.

(* ================================================================== *)
(** ** Keywords and the patterns of a question *)

Lemma split_ws_aux_pieces s : forall cur insep w,
  In w (split_ws_aux cur insep s) ->
  forall c, In c w -> is_space c = false \/ In c cur.
Proof.
  induction s as [|c s IH]; intros cur insep w H d Hd; cbn [split_ws_aux] in H.
  - destruct H as [<-|[]]. right. now apply in_rev.
  - destruct (is_space c) eqn:E.
    + destruct insep.
      * now apply (IH cur true w).
      * destruct H as [<-|H]; [right; now apply in_rev|].
        destruct (IH [] true w H d Hd) as [H1|[]]. now left.
    + destruct (IH (c :: cur) false w H d Hd) as [H1|[<-|H1]]; auto.
Qed.

Lemma split_ws_aux_from s : forall cur insep w,
  In w (split_ws_aux cur insep s) ->
  forall c, In c w -> In c cur \/ In c s.
Proof.
  induction s as [|c s IH]; intros cur insep w H d Hd; cbn [split_ws_aux] in H.
  - destruct H as [<-|[]]. left. now apply in_rev.
  - destruct (is_space c) eqn:E.
    + destruct insep.
      * destruct (IH cur true w H d Hd); [now left|right; now right].
      * destruct H as [<-|H]; [left; now apply in_rev|].
        destruct (IH [] true w H d Hd) as [[]|H1]. right. now right.
    + destruct (IH (c :: cur) false w H d Hd) as [[<-|H1]|H1];
        [right; now left|now left|right; now right].
Qed.

Lemma keywords_long question k : In k (keywords question) -> 3 < length k.
Proof.
  unfold keywords. intro H. apply filter_In in H. destruct H as [_ F].
  apply andb_true_iff in F. destruct F as [L _]. now apply Nat.ltb_lt.
Qed.

Lemma keywords_alnum question k :
  In k (keywords question) -> Forall (fun c => is_lower_alnum c = true) k.
Proof.
  unfold keywords, split_ws. intro H. apply filter_In in H.
  destruct H as [H _]. apply Forall_forall. intros c Hc.
  destruct (split_ws_aux_pieces _ _ _ _ H c Hc) as [Hs|[]].
  destruct (split_ws_aux_from _ _ _ _ H c Hc) as [[]|Hin].
  pose proof (replace_non_alnum_chars (toLowerCase question)) as R.
  rewrite Forall_forall in R. specialize (R c Hin).
  now rewrite Hs, orb_false_r in R.
Qed.

(** X7: every keyword is longer than three code units, is no stop word and
    is made of [a-z0-9]. *)
Theorem keywords_shape (question k : jsstring) :
  In k (keywords question) ->
  3 < length k /\ is_stopword k = false /\
  Forall (fun c => is_lower_alnum c = true) k.
Proof.
  intro H. split; [now apply (keywords_long question)|].
  split; [|now apply (keywords_alnum question)].
  unfold keywords in H. apply filter_In in H. destruct H as [_ F].
  apply andb_true_iff in F. destruct F as [_ S]. now apply negb_true_iff.
Qed.

Lemma keywords_shape_witness :
  3 < length (str "lead") /\ is_stopword (str "lead") = false /\
  Forall (fun c => is_lower_alnum c = true) (str "lead").
Proof.
  apply (keywords_shape (str "What is lead time?") (str "lead")).
  vm_compute. left. reflexivity.
Defined.

Lemma alnum_not_SP c : is_lower_alnum c = true -> c <> SP.
Proof. intros H ->. discriminate. Qed.

(** A string made of [a-z0-9] is its own single word. *)
Lemma words_of_alnum k :
  k <> [] -> Forall (fun c => is_lower_alnum c = true) k -> words_of k = [k].
Proof.
  intros Hne F.
  assert (Hsp : ~ In SP k).
  { intro H. rewrite Forall_forall in F. now apply (alnum_not_SP SP (F SP H)). }
  assert (N : normal k).
  { unfold normal. split; [|split; [|split]].
    - eapply Forall_impl; [|exact F]. intros c Hc. unfold is_norm_char.
      now rewrite Hc.
    - destruct (includes k [SP; SP]) eqn:E; [|reflexivity].
      apply includes_spec in E. destruct E as (l & r & ->).
      exfalso. apply Hsp. apply in_or_app. right. now left.
    - destruct k as [|c k]; [reflexivity|]. cbn [starts_with].
      rewrite andb_true_r. apply N.eqb_neq. intros <-. apply Hsp. now left.
    - destruct (rev k) as [|c r] eqn:E; [reflexivity|]. cbn [starts_with].
      rewrite andb_true_r. apply N.eqb_neq. intros <-. apply Hsp.
      apply in_rev. rewrite E. now left. }
  unfold words_of. rewrite (normalize_fixed k N). unfold split_sp.
  rewrite split_sp_aux_last by assumption. simpl.
  destruct k; [congruence|reflexivity].
Qed.

Lemma filter_all {A} (f : A -> bool) l :
  (forall x, In x l -> f x = true) -> filter f l = l.
Proof.
  induction l as [|x l IH]; intro H; simpl; [reflexivity|].
  rewrite (H x) by (now left). f_equal. apply IH. intros y Hy. apply H.
  now right.
Qed.

(** Every word of a string is found in the string itself. *)
Lemma coverage_self user :
  words_of user <> [] ->
  exists n, coverage (padded user) user = Num (Z.pos n # n).
Proof.
  intro H. unfold coverage, hits.
  rewrite filter_all by (intros w Hw; now apply word_is_hit).
  destruct (words_of user) as [|w ws]; [congruence|].
  exists (Pos.of_nat (length (w :: ws))). unfold div_len. cbn [length].
  replace (Z.of_nat (S (length ws)))
    with (Z.pos (Pos.of_nat (S (length ws)))); [reflexivity|].
  rewrite <- Pos.of_nat_succ, Zpos_P_of_succ_nat. lia.
Qed.

Lemma buildPatterns_words q :
  words_of q <> [] ->
  Forall (fun p => words_of p <> []) (buildPatternsFromQuestion q).
Proof.
  intro H. unfold buildPatternsFromQuestion. constructor; [assumption|].
  apply Forall_forall. intros k Hk. apply In_firstn in Hk.
  apply dedup_aux_In in Hk. destruct Hk as [Hk _].
  pose proof (keywords_long q k Hk) as L.
  pose proof (keywords_alnum q k Hk) as F.
  rewrite words_of_alnum; [discriminate| |assumption].
  destruct k; [simpl in L; lia|discriminate].
Qed.

Lemma score_of_own_patterns question :
  words_of question <> [] ->
  exists x, scoreMatch question (buildPatternsFromQuestion question) = Num x /\
            (x == 1)%Q.
Proof.
  intro H.
  pose proof (scoreMatch_range question _ (buildPatterns_words _ H)) as R.
  pose proof (coverage_le_score question (buildPatternsFromQuestion question)
                question (or_introl eq_refl)) as U.
  destruct (coverage_self question H) as (n & C). rewrite C in U.
  destruct (scoreMatch question (buildPatternsFromQuestion question))
    as [|x]; [contradiction|].
  exists x. split; [reflexivity|]. simpl in R.
  apply gt_num_false in U.
  assert (Z.pos n # n == 1)%Q by (unfold Qeq; simpl; lia).
  lra.
Qed.

(** X8: a question scores 1 against the patterns built from it, as soon as
    it has a word (a letter or digit of [a-z0-9] after lower-casing); the
    full score comes from the first pattern, the question itself. *)
Theorem own_patterns_score_one (question : jsstring) :
  words_of question <> [] ->
  exists x n,
    scoreMatch question (buildPatternsFromQuestion question) = Num x /\
    (x == 1)%Q /\
    coverage (padded question) question = Num (Z.pos n # n).
Proof.
  intro H. destruct (score_of_own_patterns question H) as (x & S & E).
  destruct (coverage_self question H) as (n & C).
  exists x, n. auto.
Qed.

Lemma own_patterns_score_one_witness :
  exists x n,
    scoreMatch (str "What is lead time?")
               (buildPatternsFromQuestion (str "What is lead time?")) = Num x /\
    (x == 1)%Q /\
    coverage (padded (str "What is lead time?")) (str "What is lead time?")
    = Num (Z.pos n # n).
Proof.
  apply (own_patterns_score_one (str "What is lead time?")).
  vm_compute. discriminate.
Defined.

(* ================================================================== *)
(** ** Loaded knowledge bases and answers *)

Lemma trim_idempotent s : trim (trim s) = trim s.
Proof.
  destruct (trim_ends s) as [->|[H1 H2]]; [reflexivity|now apply trim_fixed].
Qed.

Lemma qa_loop_entries : forall fuel p s l,
  qa_loop fuel p s = Some l ->
  Forall (fun e => patterns e = buildPatternsFromQuestion (q e) /\
                   trim (q e) = q e /\ trim (a e) = a e) l.
Proof.
  induction fuel as [|f IH]; intros p s l H; [discriminate|].
  cbn [qa_loop] in H.
  destruct (search qa_regex p s) as [[i st]|]; [|injection H as <-; constructor].
  destruct (qa_loop f (pos st) (rest st)) as [l'|] eqn:E; [|discriminate].
  injection H as <-. constructor; [|now apply (IH _ _ _ E)].
  cbn [q a patterns]. now rewrite !trim_idempotent.
Qed.

Lemma parseStructuredQA_entries text :
  Forall (fun e => patterns e = buildPatternsFromQuestion (q e) /\
                   trim (q e) = q e /\ trim (a e) = a e)
         (parseStructuredQA text).
Proof.
  apply (qa_loop_entries (S (length text)) 0 text).
  apply parseStructuredQA_total.
Qed.

Lemma paragraphs_trimmed text p : In p (paragraphs text) -> trim p = p.
Proof.
  unfold paragraphs, filter_Boolean. intro H. apply filter_In in H.
  destruct H as [H _]. apply in_map_iff in H. destruct H as (x & <- & _).
  apply trim_idempotent.
Qed.

(** X9: every entry of a loaded knowledge base carries the patterns built
    from its own label (between one and nine of them, the label first), and
    its answer has no white space at either end. *)
Theorem loaded_entries_invariant (src : pdf_source) (e : entry) :
  In e (loadPdfKnowledge src) ->
  patterns e = buildPatternsFromQuestion (q e) /\
  nth_error (patterns e) 0 = Some (q e) /\
  1 <= length (patterns e) <= 9 /\
  trim (a e) = a e.
Proof.
  intro H.
  assert (A : patterns e = buildPatternsFromQuestion (q e) /\ trim (a e) = a e).
  { destruct src as [| |t]; cbn [loadPdfKnowledge] in H; try contradiction.
    destruct (negb (nonempty (extracted_text t))); [contradiction|].
    destruct (nonempty_list (parseStructuredQA (extracted_text t))).
    - pose proof (parseStructuredQA_entries (extracted_text t)) as F.
      rewrite Forall_forall in F. destruct (F e H) as (H1 & _ & H3). auto.
    - apply In_firstn in H. unfold parseUnstructured in H.
      apply in_map_iff in H. destruct H as (p & <- & Hp). cbn [q a patterns].
      split; [reflexivity|]. now apply (paragraphs_trimmed _ _ Hp). }
  destruct A as [A1 A2]. rewrite A1. unfold buildPatternsFromQuestion.
  pose proof (firstn_le_length 8 (dedup (keywords (q e)))) as L.
  cbn [app nth_error length]. repeat split; auto; lia.
Qed.

Lemma best_score_range txt FAQ y :
  best_s (bestMatch txt FAQ) = Num y -> (0 <= y <= 1)%Q.
Proof.
  unfold bestMatch. intro H.
  destruct (best_loop_cases txt FAQ 0 (Best (-1) (Num 0)) 0 eq_refl)
    as [[E _]|(j & e & _ & _ & Hs & _)].
  - rewrite E in H. cbn in H. injection H as <-. lra.
  - rewrite H in Hs. symmetry in Hs. now apply scoreMatch_num_range in Hs.
Qed.

Lemma loaded_entries_invariant_witness :
  patterns (Entry (str "a") (str "b") [str "a"])
  = buildPatternsFromQuestion (q (Entry (str "a") (str "b") [str "a"])) /\
  nth_error (patterns (Entry (str "a") (str "b") [str "a"])) 0
  = Some (q (Entry (str "a") (str "b") [str "a"])) /\
  1 <= length (patterns (Entry (str "a") (str "b") [str "a"])) <= 9 /\
  trim (a (Entry (str "a") (str "b") [str "a"]))
  = a (Entry (str "a") (str "b") [str "a"]).
Proof.
  apply (loaded_entries_invariant
           (Extracted (Some (str "Q: a" ++ [LF] ++ str "A: b")))).
  vm_compute. left. reflexivity.
Defined.



(** X11: asking the label of an entry, as it is, gets an answer with score 1,
    as soon as the label has a word and the entry carries the patterns built
    from its label. *)
Theorem own_label_is_matched (FAQ : list entry) (e : entry) :
  In e FAQ ->
  patterns e = buildPatternsFromQuestion (q e) ->
  words_of (q e) <> [] ->
  exists e' x, In e' FAQ /\
               getAnswer (q e) FAQ = Matched (a e') (Num x) /\ (x == 1)%Q.
Proof.
  intros Hin Hp Hw.
  destruct (score_of_own_patterns (q e) Hw) as (x1 & S1 & E1).
  rewrite <- Hp in S1.
  pose proof (best_loop_max (q e) FAQ 0 (Best (-1) (Num 0)) 0 eq_refl e Hin)
    as M. cbv beta zeta in M. fold (bestMatch (q e) FAQ) in M.
  rewrite S1 in M.
  destruct (best_loop_mono (q e) FAQ 0 (Best (-1) (Num 0)) 0 eq_refl)
    as (y & Hy & _). fold (bestMatch (q e) FAQ) in Hy.
  rewrite Hy in M. apply gt_num_false in M.
  assert (G : gt (best_s (bestMatch (q e) FAQ)) (Num THRESHOLD) = true).
  { rewrite Hy. apply gt_num. unfold THRESHOLD.
    assert ((35 # 100) < 1)%Q by reflexivity. lra. }
  destruct (confident_has_item _ _ G) as (i & e' & Hi & Hn & He).
  assert (A : getAnswer (q e) FAQ = Matched (a e') (Num y)).
  { unfold getAnswer. now rewrite G, He, Hy. }
  exists e', y. split; [now apply nth_error_In in Hn|]. split; [assumption|].
  pose proof (best_score_range _ _ _ Hy) as R. lra.
Qed.

Lemma own_label_is_matched_witness :
  exists e' x,
    In e' sample_kb /\
    getAnswer (q sample_entry) sample_kb = Matched (a e') (Num x) /\
    (x == 1)%Q.
Proof.
  apply (own_label_is_matched sample_kb sample_entry).
  - left. reflexivity.
  - vm_compute. reflexivity.
  - vm_compute. discriminate.
Defined.

(* ================================================================== *)
(** ** Fallback chunking, loading and the end of the loop *)

(** Every code unit other than a line feed ends up in a piece. *)
Lemma split_nn_aux_covers s : forall cur insep c,
  In c cur \/ (In c s /\ c <> LF) ->
  exists w, In w (split_nn_aux cur insep s) /\ In c w.
Proof.
  induction s as [|d r IH]; intros cur insep c H; cbn [split_nn_aux].
  - destruct H as [H|[[] _]]. exists (rev cur). split; [now left|].
    now apply -> in_rev.
  - assert (Keep : exists w,
               In w (split_nn_aux (d :: cur) false r) /\ In c w).
    { apply IH. destruct H as [H|[[<-|H] Hc]]; [left; now right|left; now left|].
      right. auto. }
    destruct (N.eqb_spec d LF) as [->|Nd]; [|exact Keep].
    assert (Hr : In c cur \/ (In c r /\ c <> LF)).
    { destruct H as [H|[[<-|H] Hc]]; [now left|congruence|right; auto]. }
    destruct insep; [now apply IH|].
    destruct r as [|d' r']; [exact Keep|].
    destruct (N.eqb_spec d' LF) as [->|Nd']; [|exact Keep].
    destruct Hr as [Hr|Hr].
    + exists (rev cur). split; [now left|now apply -> in_rev].
    + destruct (IH [] true c (or_intror Hr)) as (w & Hw & Hc).
      exists w. split; [now right|assumption].
Qed.

Lemma non_blank_In s :
  non_blank s = true <-> exists c, In c s /\ is_space c = false.
Proof.
  unfold non_blank. rewrite existsb_exists. split; intros (c & H1 & H2);
    exists c; (split; [assumption|]).
  - now apply negb_true_iff.
  - now apply negb_true_iff.
Qed.

Lemma trim_non_blank s : non_blank s = true -> trim s <> [].
Proof.
  intro H. destruct (trim_split s H) as (_ & _ & _ & _ & _ & (c & r & -> & _) & _).
  discriminate.
Qed.

Lemma paragraphs_non_blank text :
  non_blank text = true -> paragraphs text <> [].
Proof.
  intro H. apply non_blank_In in H. destruct H as (c & Hin & Hc).
  destruct (split_nn_aux_covers text [] false c) as (w & Hw & Hcw).
  { right. split; [assumption|]. intros ->. discriminate. }
  assert (In (trim w) (paragraphs text)).
  { unfold paragraphs, filter_Boolean. apply filter_In. split.
    - apply in_map. exact Hw.
    - assert (trim w <> []).
      { apply trim_non_blank. apply non_blank_In. eauto. }
      destruct (trim w); [congruence|reflexivity]. }
  intro E. rewrite E in H. contradiction.
Qed.

(** X12: the paragraph chunking of a text with a code unit outside white
    space gives at least one entry. *)
Theorem parseUnstructured_nonempty (text : jsstring) :
  non_blank text = true -> parseUnstructured text <> [].
Proof.
  intros H E. apply (paragraphs_non_blank text H).
  unfold parseUnstructured in E. now apply map_eq_nil in E.
Qed.

Lemma nonempty_trim_non_blank s : trim s <> [] -> non_blank (trim s) = true.
Proof.
  intro H. destruct (trim_ends s) as [E|[(c & r & E & Hc) _]]; [congruence|].
  rewrite E. simpl. now rewrite Hc.
Qed.

Lemma parseUnstructured_nonempty_witness :
  parseUnstructured (str "Hello.") <> [].
Proof.
  apply (parseUnstructured_nonempty (str "Hello.")). vm_compute. reflexivity.
Defined.

(** X13: the knowledge base loaded is empty exactly when the load fails: no
    file, an exception, or no text.  Any extracted text gives entries. *)
Theorem load_empty_iff_failed (src : pdf_source) :
  loadPdfKnowledge src = [] <-> failed src = true.
Proof.
  destruct src as [| |t]; cbn [loadPdfKnowledge failed]; try tauto.
  destruct (nonempty (extracted_text t)) eqn:N; cbn [negb]; [|tauto].
  split; [|discriminate]. intro H. exfalso.
  destruct (parseStructuredQA (extracted_text t)) as [|e l] eqn:S;
    cbn [nonempty_list] in H; [|discriminate].
  assert (B : non_blank (extracted_text t) = true).
  { unfold extracted_text in *. apply nonempty_trim_non_blank.
    destruct (trim _); [discriminate|discriminate]. }
  apply paragraphs_non_blank in B. unfold parseUnstructured in H.
  destruct (paragraphs (extracted_text t)); [congruence|discriminate].
Qed.

(** What the first-sentence regex captures: a piece of the paragraph that
    ends with a terminator and is followed by white space. *)
Lemma first_regex_capture st res :
  m first_regex st Some = Some res ->
  exists body d e suf,
    rest st = body ++ d :: e :: suf /\ body <> [] /\
    is_terminator d = true /\ is_space e = true /\
    group 1 res = body ++ [d].
Proof.
  unfold first_regex, Plus. intro H.
  rewrite m_seq in H. cbn [m] in H.
  unfold dot at 1 in H. apply m_chr in H.
  destruct H as (c & s & R & _ & H). cbn [rest] in H.
  apply star_loop_sound in H; [|apply m_sound].
  destruct H as (st1 & (u & Hu & Pu & _) & H). cbn [rest pos] in Hu, Pu.
  destruct (rest st1) as [|d s1]; [discriminate|].
  destruct (is_terminator d) eqn:Td; [|discriminate].
  unfold ws in H. apply m_chr in H.
  destruct H as (e & s2 & E2 & He & H). unfold set_cap in E2.
  cbn [rest] in E2. injection H as <-.
  exists (c :: u), d, e, s2. subst s1.
  split; [rewrite R, Hu; reflexivity|]. split; [discriminate|].
  split; [assumption|]. split; [assumption|].
  unfold group, get_cap. cbn [caps set_cap pos lookup_cap Nat.eqb].
  rewrite R, Hu.
  match goal with |- firstn ?n _ = _ =>
    assert (E : n = length (c :: u ++ [d]))
      by (cbn [length]; rewrite length_app; cbn [length]; destruct (pos st); lia);
    rewrite E end.
  change (c :: u ++ d :: e :: s2) with ((c :: u) ++ d :: e :: s2).
  change (c :: u ++ [d]) with ((c :: u) ++ [d]).
  replace ((c :: u) ++ d :: e :: s2) with (((c :: u) ++ [d]) ++ e :: s2)
    by (now rewrite <- app_assoc).
  rewrite firstn_app, firstn_all, Nat.sub_diag. simpl. now rewrite app_nil_r.
Qed.

Lemma first_sentence_sub p : exists l r, p = l ++ first_sentence p ++ r.
Proof.
  unfold first_sentence.
  destruct (search first_regex 0 p) as [[i st]|] eqn:E.
  - apply search_some in E. destruct E as (pre & suf & -> & _ & E).
    apply first_regex_capture in E.
    destruct E as (body & d & e & s & R & _ & _ & _ & ->). cbn [rest] in R.
    exists pre, (e :: s). rewrite R. now rewrite <- app_assoc.
  - exists [], []. now rewrite app_nil_r.
Qed.

(** X14: a fallback label has at most 120 code units; it is a piece of the
    paragraph, or the first 117 code units of such a piece followed by the
    ellipsis. *)
Theorem fallback_label_shape (text : jsstring) (e : entry) :
  In e (parseUnstructured text) ->
  length (q e) <= 120 /\
  (includes (a e) (q e) = true \/
   exists pre, q e = pre ++ [ELLIPSIS] /\ length pre = 117 /\
               includes (a e) pre = true).
Proof.
  unfold parseUnstructured. intro H. apply in_map_iff in H.
  destruct H as (p & <- & _). cbn [q a]. unfold label_of.
  destruct (first_sentence_sub p) as (l & r & E).
  destruct (Nat.ltb_spec 120 (length (first_sentence p))) as [L|L].
  - unfold slice0. split.
    + rewrite length_app, length_firstn. cbn [length]. lia.
    + right. exists (firstn 117 (first_sentence p)).
      split; [reflexivity|]. split; [rewrite length_firstn; lia|].
      apply includes_spec. exists l, (skipn 117 (first_sentence p) ++ r).
      rewrite app_assoc, (app_assoc _ (skipn _ _)), <- (app_assoc l).
      rewrite firstn_skipn. now rewrite <- app_assoc.
  - split; [assumption|]. left. apply includes_spec. eauto.
Qed.

Lemma fallback_label_shape_witness :
  length (q (Entry (str "Hello.") (str "Hello. World")
                   [str "Hello."; str "hello"])) <= 120 /\
  (includes (a (Entry (str "Hello.") (str "Hello. World")
                      [str "Hello."; str "hello"]))
            (q (Entry (str "Hello.") (str "Hello. World")
                      [str "Hello."; str "hello"])) = true \/
   exists pre,
     q (Entry (str "Hello.") (str "Hello. World")
              [str "Hello."; str "hello"]) = pre ++ [ELLIPSIS] /\
     length pre = 117 /\
     includes (a (Entry (str "Hello.") (str "Hello. World")
                        [str "Hello."; str "hello"])) pre = true).
Proof.
  apply (fallback_label_shape (str "Hello. World")).
  vm_compute. left. reflexivity.
Defined.

Lemma qa_loop_fuel : forall f1 f2 p s,
  length s < f1 -> length s < f2 -> qa_loop f1 p s = qa_loop f2 p s.
Proof.
  induction f1 as [|f1 IH]; intros [|f2] p s L1 L2; try lia.
  cbn [qa_loop].
  destruct (search qa_regex p s) as [[i st]|] eqn:E; [|reflexivity].
  apply search_some in E. destruct E as (pre & suf & -> & _ & E).
  apply qa_regex_match in E. destruct E as (_ & _ & E). cbn [rest] in E.
  rewrite length_app in L1, L2.
  rewrite (IH f2 (pos st) (rest st)) by lia. reflexivity.
Qed.

Lemma qa_loop_length : forall fuel p s l,
  qa_loop fuel p s = Some l -> length l <= length s.
Proof.
  induction fuel as [|f IH]; intros p s l H; [discriminate|].
  cbn [qa_loop] in H.
  destruct (search qa_regex p s) as [[i st]|] eqn:E;
    [|injection H as <-; simpl; lia].
  destruct (qa_loop f (pos st) (rest st)) as [l'|] eqn:E'; [|discriminate].
  injection H as <-. apply IH in E'.
  apply search_some in E. destruct E as (pre & suf & -> & _ & E).
  apply qa_regex_match in E. destruct E as (_ & _ & E). cbn [rest] in E.
  rewrite length_app. simpl. lia.
Qed.

(** X15: the loop of [parseStructuredQA] ends: every match moves
    [lastIndex] forward, so any number of rounds above the length of the
    text gives the same entries, and there are no more entries than code
    units. *)
Theorem qa_loop_terminates (text : jsstring) (fuel : nat) :
  length text < fuel ->
  qa_loop fuel 0 text = Some (parseStructuredQA text) /\
  length (parseStructuredQA text) <= length text.
Proof.
  intro L. rewrite (qa_loop_fuel fuel (S (length text)) 0 text) by lia.
  split; [apply parseStructuredQA_total|].
  apply (qa_loop_length (S (length text)) 0). apply parseStructuredQA_total.
Qed.

Lemma qa_loop_terminates_witness :
  qa_loop 20 0 (str "Q: a" ++ [LF] ++ str "A: b")
  = Some (parseStructuredQA (str "Q: a" ++ [LF] ++ str "A: b")) /\
  length (parseStructuredQA (str "Q: a" ++ [LF] ++ str "A: b"))
  <= length (str "Q: a" ++ [LF] ++ str "A: b").
Proof.
  apply (qa_loop_terminates (str "Q: a" ++ [LF] ++ str "A: b") 20).
  apply Nat.ltb_lt. vm_compute. reflexivity.
Defined.

(* ================================================================== *)
(** ** The anatomy of a structured match *)

Lemma greedy_chr_sound P k cs res : forall s p,
  greedy_chr P k p s cs = Some res ->
  exists u t, s = u ++ t /\ k (MState (p + length u) t cs) = Some res.
Proof.
  induction s as [|c s IH]; intros p H; cbn [greedy_chr] in H.
  - exists [], []. simpl. now rewrite Nat.add_0_r.
  - assert (Here : k (MState p (c :: s) cs) = Some res ->
                   exists u t, c :: s = u ++ t /\
                               k (MState (p + length u) t cs) = Some res).
    { intro E. exists [], (c :: s). simpl. now rewrite Nat.add_0_r. }
    destruct (P c); [|now apply Here].
    apply or_else_some in H. destruct H as [H|[_ H]]; [|now apply Here].
    apply IH in H. destruct H as (u & t & -> & H).
    exists (c :: u), t. split; [reflexivity|].
    now replace (p + length (c :: u)) with (S p + length u) by (simpl; lia).
Qed.

(** The lazy loop stops at the first place where the continuation
    succeeds. *)
Lemma lazy_chr_sound P k cs res : forall s p,
  lazy_chr P k p s cs = Some res ->
  exists u t, s = u ++ t /\ Forall (fun c => P c = true) u /\
              k (MState (p + length u) t cs) = Some res /\
              forall u1 u2, u = u1 ++ u2 -> u2 <> [] ->
                            k (MState (p + length u1) (u2 ++ t) cs) = None.
Proof.
  induction s as [|c s IH]; intros p H; cbn [lazy_chr] in H.
  - exists [], []. simpl. rewrite Nat.add_0_r.
    repeat split; auto. intros u1 u2 E Hne.
    symmetry in E. apply app_eq_nil in E. destruct E. congruence.
  - apply or_else_some in H. destruct H as [H|[N H]].
    + exists [], (c :: s). simpl. rewrite Nat.add_0_r.
      repeat split; auto. intros u1 u2 E Hne.
      symmetry in E. apply app_eq_nil in E. destruct E. congruence.
    + destruct (P c) eqn:Pc; [|discriminate].
      apply IH in H. destruct H as (u & t & -> & Fu & H & Hf).
      exists (c :: u), t. split; [reflexivity|]. split; [now constructor|].
      split.
      * now replace (p + length (c :: u)) with (S p + length u)
          by (simpl; lia).
      * intros u1 u2 E Hne. destruct u1 as [|d u1]; simpl in E.
        -- subst u2. simpl. now rewrite Nat.add_0_r.
        -- injection E as <- ->.
           replace (p + length (c :: u1)) with (S p + length u1)
             by (simpl; lia).
           now apply Hf.
Qed.

Lemma m_chr_state P p s cs k res :
  m (Chr P) (MState p s cs) k = Some res ->
  exists c s', s = c :: s' /\ P c = true /\ k (MState (S p) s' cs) = Some res.
Proof. intro H. apply m_chr in H. exact H. Qed.

Lemma m_alt r1 r2 st k : m (Alt r1 r2) st k = or_else (m r1 st k) (m r2 st k).
Proof. reflexivity. Qed.

Lemma m_lookahead r st k :
  m (Lookahead r) st k
  = match m r st Some with
    | Some st' => k (MState (pos st) (rest st) (caps st'))
    | None => None
    end.
Proof. reflexivity. Qed.

Lemma next_question_result p s cs res :
  m next_question (MState p s cs) Some = Some res ->
  res = MState p s cs /\ boundary s.
Proof.
  unfold next_question. rewrite m_lookahead, m_alt. cbn [pos rest]. intro H.
  destruct (or_else _ _) as [st'|] eqn:E; [|discriminate].
  injection H as <-. apply or_else_some in E. destruct E as [E|[_ E]].
  - rewrite m_seq in E. unfold lit at 1 in E. apply m_chr_state in E.
    destruct E as (c1 & s1 & -> & H1 & E).
    rewrite m_seq in E. unfold lit_i in E. apply m_chr_state in E.
    destruct E as (c2 & s2 & -> & H2 & E).
    unfold lit in E. apply m_chr_state in E.
    destruct E as (c3 & s3 & -> & H3 & E). injection E as <-.
    apply N.eqb_eq in H1, H3. subst. split; [reflexivity|].
    right. eauto.
  - cbn [m rest] in E. destruct s; [|discriminate]. injection E as <-.
    split; [reflexivity|now left].
Qed.

(** What a match of the question/answer regex captures and where it
    ends. *)
Lemma qa_regex_anatomy st res :
  m qa_regex st Some = Some res ->
  exists v1 v2,
    group 1 res = v1 /\ group 2 res = v2 /\
    v1 <> [] /\ single_line v1 = true /\
    (forall l c r, v2 = l ++ LF :: c :: COLON :: r ->
                   letter_i UPPER_Q c = false) /\
    boundary (rest res).
Proof.
  intro H. rewrite qa_regex_pieces in H.
  do 4 skip_prefix H. unfold qa_after_q in H. skip_prefix H.
  destruct st4 as [p5 s5 c5].
  rewrite m_seq, m_group in H. unfold Plus in H. rewrite m_seq in H.
  unfold dot in H. apply m_chr_state in H.
  destruct H as (c & s & -> & Dc & H).
  rewrite m_star_lazy_chr in H. apply lazy_chr_sound in H.
  destruct H as (u & t & -> & Du & H & _).
  unfold set_cap in H. cbn [pos rest caps] in H.
  replace (S p5 + length u - p5) with (length (c :: u)) in H
    by (cbn [length]; lia).
  change (c :: u ++ t) with ((c :: u) ++ t) in H.
  rewrite firstn_app, firstn_all, Nat.sub_diag in H. cbn [firstn] in H.
  rewrite app_nil_r in H.
  (* the line feed and the answer marker *)
  unfold qa_mid in H. rewrite m_seq in H. unfold ws in H.
  rewrite m_star_greedy_chr in H. apply greedy_chr_sound in H.
  destruct H as (w & t1 & -> & H).
  unfold qa_mid_k in H. rewrite m_seq in H. unfold lit at 1 in H.
  apply m_chr_state in H. destruct H as (x1 & t2 & -> & _ & H).
  rewrite m_seq in H. unfold lit_i in H.
  apply m_chr_state in H. destruct H as (x2 & t3 & -> & _ & H).
  rewrite m_seq in H. unfold lit at 1 in H.
  apply m_chr_state in H. destruct H as (x3 & t4 & -> & _ & H).
  (* the answer *)
  unfold qa_tail in H. rewrite m_seq in H. unfold ws in H.
  rewrite m_star_greedy_chr in H. apply greedy_chr_sound in H.
  destruct H as (w' & t5 & -> & H).
  rewrite m_seq, m_group in H. unfold any in H.
  rewrite m_star_lazy_chr in H. apply lazy_chr_sound in H.
  destruct H as (v2 & t6 & -> & _ & H & Hf).
  unfold set_cap in H. cbn [pos rest caps] in H.
  apply next_question_result in H. destruct H as [-> B].
  exists (c :: u), v2.
  unfold group, get_cap. cbn [caps lookup_cap Nat.eqb rest].
  match goal with |- context [firstn ?n (v2 ++ t6)] =>
    replace n with (length v2) by lia end.
  rewrite firstn_app, firstn_all, Nat.sub_diag. cbn [firstn].
  rewrite app_nil_r.
  split; [reflexivity|]. split; [reflexivity|]. split; [discriminate|].
  split.
  { unfold single_line. cbn [forallb]. rewrite Dc. cbn [andb].
    apply forallb_forall. rewrite Forall_forall in Du. exact Du. }
  split; [|exact B].
  intros l c' r -> . destruct (letter_i UPPER_Q c') eqn:L; [|reflexivity].
  exfalso.
  specialize (Hf l (LF :: c' :: COLON :: r) eq_refl).
  unfold set_cap in Hf. cbn [pos rest caps] in Hf.
  rewrite next_question_boundary in Hf.
  - discriminate Hf. discriminate.
  - right. simpl. eauto.
Qed.

Lemma single_line_trim s : single_line s = true -> single_line (trim s) = true.
Proof.
  intro H. destruct (trim_sub s) as (w1 & w2 & E). rewrite E in H.
  rewrite !single_line_app in H. apply andb_true_iff in H.
  destruct H as [_ H]. apply andb_true_iff in H. now destruct H.
Qed.

Lemma qa_loop_shape : forall fuel p s l,
  qa_loop fuel p s = Some l ->
  Forall (fun e => single_line (q e) = true /\
                   forall l c r, a e = l ++ LF :: c :: COLON :: r ->
                                 letter_i UPPER_Q c = false) l.
Proof.
  induction fuel as [|f IH]; intros p s l H; [discriminate|].
  cbn [qa_loop] in H.
  destruct (search qa_regex p s) as [[i st]|] eqn:E;
    [|injection H as <-; constructor].
  destruct (qa_loop f (pos st) (rest st)) as [l'|] eqn:E'; [|discriminate].
  injection H as <-. constructor; [|now apply (IH _ _ _ E')].
  apply search_some in E. destruct E as (_ & suf & _ & _ & E).
  apply qa_regex_anatomy in E.
  destruct E as (v1 & v2 & -> & -> & _ & S1 & N2 & _). cbn [q a]. split.
  - now apply single_line_trim.
  - intros l0 c r E. destruct (trim_sub v2) as (w1 & w2 & E2).
    apply (N2 (w1 ++ l0) c (r ++ w2)). rewrite E2 at 1. rewrite E.
    now rewrite <- !app_assoc.
Qed.

(** X16: in every entry of the structured parse the label is on one line
    without white space at either end, and the answer holds no line feed
    directly followed by a question marker. *)
Theorem structured_entries_shape (text : jsstring) (e : entry) :
  In e (parseStructuredQA text) ->
  single_line (q e) = true /\ trim (q e) = q e /\
  forall l c r, a e = l ++ LF :: c :: COLON :: r -> letter_i UPPER_Q c = false.
Proof.
  intro H.
  pose proof (qa_loop_shape _ _ _ _ (parseStructuredQA_total text)) as F.
  rewrite Forall_forall in F. destruct (F e H) as [F1 F2].
  pose proof (parseStructuredQA_entries text) as G.
  rewrite Forall_forall in G. destruct (G e H) as (_ & G2 & _). auto.
Qed.

Lemma structured_entries_shape_witness :
  single_line (q (Entry (str "a") (str "b") [str "a"])) = true /\
  trim (q (Entry (str "a") (str "b") [str "a"]))
  = q (Entry (str "a") (str "b") [str "a"]) /\
  forall l c r,
    a (Entry (str "a") (str "b") [str "a"]) = l ++ LF :: c :: COLON :: r ->
    letter_i UPPER_Q c = false.
Proof.
  apply (structured_entries_shape (str "Q: a" ++ [LF] ++ str "A: b")).
  vm_compute. left. reflexivity.
Defined.

(* ================================================================== *)
(** ** White space around a query *)

Lemma trimStart_app_space w s : all_space w -> trimStart (w ++ s) = trimStart s.
Proof. induction 1 as [|c w Hc _ IH]; simpl; [reflexivity|]. now rewrite Hc. Qed.

Lemma trim_decomp w1 core w2 :
  all_space w1 -> all_space w2 ->
  starts_nonspace core -> ends_nonspace core ->
  trim (w1 ++ core ++ w2) = core.
Proof.
  intros H1 H2 S E. unfold trim, trimEnd.
  rewrite trimStart_app_space by assumption.
  assert (S' : starts_nonspace (core ++ w2)).
  { destruct S as (c & r & -> & Hc). exists c, (r ++ w2).
    split; [reflexivity|assumption]. }
  rewrite (trimStart_nonspace _ S').
  rewrite rev_app_distr, trimStart_app_space by (now apply all_space_rev).
  rewrite trimStart_nonspace by (now apply ends_nonspace_rev).
  apply rev_involutive.
Qed.

Lemma trim_app_space_r s w : all_space w -> trim (s ++ w) = trim s.
Proof.
  intro H. destruct (non_blank s) eqn:B.
  - destruct (trim_split s B) as (w1 & w2 & E & H1 & H2 & S1 & S2).
    rewrite E at 1. rewrite <- !app_assoc. apply trim_decomp; auto.
    apply Forall_app. auto.
  - rewrite !trim_blank; auto.
    + now apply non_blank_false.
    + apply Forall_app. split; [now apply non_blank_false|assumption].
Qed.

Lemma trim_app_space_l w s : all_space w -> trim (w ++ s) = trim s.
Proof. intro H. unfold trim. now rewrite trimStart_app_space. Qed.

Lemma space_lower_unit c : is_space c = true -> lower_unit c = [c].
Proof.
  unfold is_space, lower_unit. intro H.
  destruct ((65 <=? c)%N && (c <=? 90)%N) eqn:E1.
  { apply andb_true_iff in E1. rewrite !N.leb_le in E1.
    repeat rewrite orb_true_iff in H. repeat rewrite andb_true_iff in H.
    repeat rewrite N.leb_le in H. repeat rewrite N.eqb_eq in H. lia. }
  destruct (N.eqb_spec c 304) as [->|]; [discriminate|].
  destruct (N.eqb_spec c 8490) as [->|]; [discriminate|]. reflexivity.
Qed.

Lemma space_prepared w :
  all_space w -> replace_non_alnum (toLowerCase w) = w.
Proof.
  induction 1 as [|c w Hc _ IH]; [reflexivity|].
  unfold toLowerCase in *. cbn [flat_map].
  rewrite (space_lower_unit c Hc). cbn [app].
  unfold replace_non_alnum in *. cbn [map]. rewrite IH, Hc, orb_true_r.
  reflexivity.
Qed.

Lemma prepared_app s t :
  replace_non_alnum (toLowerCase (s ++ t))
  = replace_non_alnum (toLowerCase s) ++ replace_non_alnum (toLowerCase t).
Proof.
  unfold toLowerCase, replace_non_alnum. now rewrite flat_map_app, map_app.
Qed.

Lemma collapse_aux_flag s :
  collapse_aux false s = collapse_aux true s \/
  collapse_aux false s = SP :: collapse_aux true s.
Proof.
  destruct s as [|c s]; [now left|]. cbn [collapse_aux].
  destruct (is_space c); [now right|now left].
Qed.

Lemma trim_collapse_flag s :
  trim (collapse_aux true s) = trim (collapse_aux false s).
Proof.
  destruct (collapse_aux_flag s) as [->| ->]; [reflexivity|].
  symmetry. now apply trim_space_cons.
Qed.

Lemma collapse_aux_skip w s :
  all_space w -> collapse_aux true (w ++ s) = collapse_aux true s.
Proof.
  induction 1 as [|c w Hc _ IH]; [reflexivity|].
  cbn [app collapse_aux]. now rewrite Hc.
Qed.

Lemma collapse_aux_space_l w : forall b s,
  all_space w -> w <> [] ->
  exists pre, all_space pre /\ collapse_aux b (w ++ s) = pre ++ collapse_aux true s.
Proof.
  intros b s H Hne. destruct w as [|c w]; [congruence|].
  inversion H as [|? ? Hc Hw]; subst. cbn [app collapse_aux]. rewrite Hc.
  rewrite (collapse_aux_skip w s Hw).
  destruct b; [exists []|exists [SP]]; split; try reflexivity; repeat constructor.
Qed.

Lemma collapse_aux_space_r w : forall s b,
  all_space w ->
  exists suf, all_space suf /\ collapse_aux b (s ++ w) = collapse_aux b s ++ suf.
Proof.
  intros s b H. revert b. induction s as [|c s IH]; intro b.
  - cbn [app collapse_aux]. destruct w as [|d w].
    + exists []. split; [constructor|reflexivity].
    + destruct (collapse_aux_space_l (d :: w) b [] H) as (pre & Hp & E);
        [discriminate|].
      rewrite app_nil_r in E. cbn [collapse_aux] in E. rewrite app_nil_r in E.
      exists pre. auto.
  - cbn [app collapse_aux]. destruct (is_space c).
    + destruct b.
      * apply IH.
      * destruct (IH true) as (suf & Hs & E). exists suf.
        split; [assumption|]. now rewrite E.
    + destruct (IH false) as (suf & Hs & E). exists suf.
      split; [assumption|]. now rewrite E.
Qed.

(** [normalize] does not see white space around its argument. *)
Lemma normalize_trim s : normalize (trim s) = normalize s.
Proof.
  destruct (non_blank s) eqn:B.
  - destruct (trim_split s B) as (w1 & w2 & E & H1 & H2 & _).
    rewrite E at 2. unfold normalize, collapse_spaces.
    rewrite !prepared_app, (space_prepared w1 H1), (space_prepared w2 H2).
    set (X := replace_non_alnum (toLowerCase (trim s))).
    rewrite (app_assoc w1 X w2).
    destruct (collapse_aux_space_r w2 (w1 ++ X) false H2) as (suf & Hs & ->).
    rewrite trim_app_space_r by assumption.
    destruct w1 as [|c w1]; [reflexivity|].
    destruct (collapse_aux_space_l (c :: w1) false X H1) as (pre & Hp & ->);
      [discriminate|].
    rewrite trim_app_space_l by assumption.
    symmetry. apply trim_collapse_flag.
  - pose proof (non_blank_false _ B) as A.
    rewrite (trim_blank s A). unfold normalize, collapse_spaces.
    rewrite (space_prepared s A).
    destruct s as [|c s]; [reflexivity|].
    destruct (collapse_aux_space_l (c :: s) false [] A) as (pre & Hp & E);
      [discriminate|].
    rewrite app_nil_r in E. rewrite E. cbn [collapse_aux].
    rewrite app_nil_r. symmetry. now apply trim_blank.
Qed.

Lemma best_loop_ext t1 t2 :
  (forall ps, scoreMatch t1 ps = scoreMatch t2 ps) ->
  forall faq i b, best_loop t1 i faq b = best_loop t2 i faq b.
Proof.
  intros H faq. induction faq as [|e faq IH]; intros i b; [reflexivity|].
  cbn [best_loop]. rewrite H. apply IH.
Qed.

Lemma getAnswer_trim v FAQ : getAnswer (trim v) FAQ = getAnswer v FAQ.
Proof.
  assert (H : forall ps, scoreMatch (trim v) ps = scoreMatch v ps).
  { intro ps. unfold scoreMatch, padded. now rewrite normalize_trim. }
  unfold getAnswer, bestMatch. now rewrite (best_loop_ext _ _ H).
Qed.

Lemma nonempty_trim v : nonempty (trim v) = non_blank v.
Proof.
  destruct (non_blank v) eqn:B.
  - pose proof (trim_non_blank v B). destruct (trim v); [congruence|reflexivity].
  - now rewrite (trim_blank v (non_blank_false v B)).
Qed.

(** X17: the submit handler gives no reply to a blank input, and to any other
    input the reply [getAnswer] gives to the input as typed: the white space
    around a query does not change the answer. *)
Theorem on_submit_reply (value : jsstring) (FAQ : list entry) :
  on_submit value FAQ
  = if non_blank value then Some (getAnswer value FAQ) else None.
Proof.
  unfold on_submit. rewrite nonempty_trim, getAnswer_trim.
  now destruct (non_blank value).
Qed.

Lemma best_loop_app txt l1 : forall l2 i b,
  best_loop txt i (l1 ++ l2) b
  = best_loop txt (i + length l1) l2 (best_loop txt i l1 b).
Proof.
  induction l1 as [|e l1 IH]; intros l2 i b; cbn [app best_loop length].
  - now rewrite Nat.add_0_r.
  - rewrite IH. f_equal. lia.
Qed.

Lemma nth_error_item_app FAQ more i e :
  item_at FAQ i = Some e -> item_at (FAQ ++ more) i = Some e.
Proof.
  unfold item_at. destruct (i <? 0)%Z; [discriminate|]. intro H.
  rewrite nth_error_app1; [assumption|].
  apply nth_error_Some. congruence.
Qed.

(** X18: entries appended to the knowledge base never take a match away: a
    query that was matched is still matched, with a score that is not
    lower, and with the same answer unless an appended entry scores
    strictly higher. *)
Theorem append_keeps_match (txt : jsstring) (FAQ more : list entry)
        (text : jsstring) (s : jsnum) :
  getAnswer txt FAQ = Matched text s ->
  exists text' s',
    getAnswer txt (FAQ ++ more) = Matched text' s' /\ gt s s' = false /\
    ((forall e, In e more -> gt (scoreMatch txt (patterns e)) s = false) ->
     text' = text /\ s' = s).
Proof.
  unfold getAnswer. intro H.
  destruct (gt (best_s (bestMatch txt FAQ)) (Num THRESHOLD)) eqn:G;
    [|discriminate].
  destruct (confident_has_item txt FAQ G) as (i & e & Hi & Hn & He).
  rewrite He in H. injection H as <- <-.
  pose proof G as G0. apply gt_true in G0.
  destruct G0 as (x & t0 & Hx & Ht & Hlt). injection Ht as <-.
  assert (A : bestMatch txt (FAQ ++ more)
              = best_loop txt (length FAQ) more (bestMatch txt FAQ)).
  { unfold bestMatch. now rewrite best_loop_app. }
  destruct (best_loop_mono txt more (length FAQ) (bestMatch txt FAQ) x Hx)
    as (y & Hy & Hle). rewrite <- A in Hy.
  assert (G' : gt (best_s (bestMatch txt (FAQ ++ more))) (Num THRESHOLD) = true).
  { rewrite Hy. apply gt_num. lra. }
  destruct (confident_has_item txt (FAQ ++ more) G') as (i' & e' & _ & _ & He').
  rewrite G', He'. exists (a e'), (best_s (bestMatch txt (FAQ ++ more))).
  split; [reflexivity|]. split.
  - rewrite Hx, Hy. apply gt_num_false. exact Hle.
  - intro Hno.
    destruct (best_loop_cases txt more (length FAQ) (bestMatch txt FAQ) x Hx)
      as [[E _]|(j & e2 & Hn2 & _ & _ & Hg & _)].
    + rewrite <- A in E. rewrite E in He' |- *.
      apply (nth_error_item_app FAQ more) in He. rewrite He in He'.
      injection He' as <-. auto.
    + apply nth_error_In in Hn2. rewrite (Hno e2 Hn2) in Hg. discriminate.
Qed.

Lemma append_keeps_match_witness :
  exists text' s',
    getAnswer (str "what is lead time") (sample_kb ++ [sample_entry])
    = Matched text' s' /\
    gt (Num (4 # 4)) s' = false /\
    ((forall e, In e [sample_entry] ->
                gt (scoreMatch (str "what is lead time") (patterns e))
                   (Num (4 # 4)) = false) ->
     text' = str "Minimum notice required before a change window." /\
     s' = Num (4 # 4)).
Proof.
  apply (append_keeps_match (str "what is lead time") sample_kb [sample_entry]).
  vm_compute. reflexivity.
Defined.

(* ================================================================== *)
(** ** Paragraphs *)

Lemma no_double_lf_includes s :
  no_double_lf s = true <-> includes s [LF; LF] = false.
Proof.
  induction s as [|c s IH]; [split; reflexivity|].
  cbn [includes no_double_lf]. destruct s as [|d r].
  - cbn. rewrite andb_false_r. split; reflexivity.
  - rewrite andb_true_iff, orb_false_iff, IH. cbn [starts_with].
    rewrite andb_true_r, (N.eqb_sym LF c), (N.eqb_sym LF d), negb_true_iff.
    tauto.
Qed.

Lemma includes_rev s t : includes (rev s) (rev t) = includes s t.
Proof.
  assert (H : forall s t, includes s t = true -> includes (rev s) (rev t) = true).
  { intros s0 t0 H. apply includes_spec in H. destruct H as (l & r & ->).
    apply includes_spec. exists (rev r), (rev l).
    now rewrite !rev_app_distr, <- app_assoc. }
  destruct (includes s t) eqn:E.
  - now apply H.
  - destruct (includes (rev s) (rev t)) eqn:E'; [|reflexivity].
    apply H in E'. rewrite !rev_involutive in E'. congruence.
Qed.

Lemma no_double_lf_rev s : no_double_lf s = true -> no_double_lf (rev s) = true.
Proof.
  intro H. apply no_double_lf_includes. apply no_double_lf_includes in H.
  change [LF; LF] with (rev [LF; LF]). now rewrite includes_rev.
Qed.

Lemma split_nn_aux_no_double s : forall cur insep w,
  no_double_lf cur = true ->
  (insep = true -> cur = []) ->
  (starts_with [LF] cur = true -> starts_with [LF] s = false) ->
  In w (split_nn_aux cur insep s) -> no_double_lf w = true.
Proof.
  induction s as [|c r IH]; intros cur insep w I1 I2 I3 H;
    cbn [split_nn_aux] in H.
  - destruct H as [<-|[]]. now apply no_double_lf_rev.
  - assert (Push : (c =? LF)%N = false \/ starts_with [LF] r = false ->
                   In w (split_nn_aux (c :: cur) false r) ->
                   no_double_lf w = true).
    { intros Hc Hw. apply (IH (c :: cur) false w); auto.
      - cbn [no_double_lf]. destruct cur as [|d cur']; [reflexivity|].
        rewrite I1, andb_true_r. apply negb_true_iff.
        destruct (N.eqb_spec c LF) as [->|]; [|reflexivity].
        destruct (N.eqb_spec d LF) as [->|]; [|reflexivity].
        specialize (I3 eq_refl). discriminate.
      - discriminate.
      - intro S. cbn [starts_with] in S. rewrite andb_true_r, N.eqb_sym in S.
        destruct Hc as [Hc|Hc]; congruence. }
    destruct (N.eqb_spec c LF) as [->|Nc]; [|apply Push; auto].
    destruct insep.
    + rewrite (I2 eq_refl) in *. apply (IH [] true w); auto. discriminate.
    + destruct r as [|d r']; [apply Push; auto|].
      destruct (N.eqb_spec d LF) as [->|Nd].
      * destruct H as [<-|H]; [now apply no_double_lf_rev|].
        apply (IH [] true w); auto.
      * apply Push; [|assumption]. right. cbn [starts_with].
        rewrite andb_true_r. apply N.eqb_neq. congruence.
Qed.

(** X19: a paragraph of the fallback chunking holds no empty line: no two
    line feeds in a row. *)
Theorem paragraph_no_blank_line (text : jsstring) (e : entry) :
  In e (parseUnstructured text) -> includes (a e) [LF; LF] = false.
Proof.
  unfold parseUnstructured. intro H. apply in_map_iff in H.
  destruct H as (p & <- & H). cbn [a].
  unfold paragraphs, filter_Boolean in H. apply filter_In in H.
  destruct H as [H _]. apply in_map_iff in H. destruct H as (w & <- & H).
  destruct (trim_sub w) as (w1 & w2 & E).
  apply (includes_sub w w1 (trim w) w2 _ E).
  apply no_double_lf_includes.
  apply (split_nn_aux_no_double text [] false w); auto; discriminate.
Qed.

Lemma paragraph_no_blank_line_witness :
  includes (a (Entry (str "Hello.") (str "Hello. World")
                     [str "Hello."; str "hello"])) [LF; LF] = false.
Proof.
  apply (paragraph_no_blank_line (str "Hello. World")).
  vm_compute. left. reflexivity.
Defined.

(* ================================================================== *)
(** ** Markers at the start of a line, and the cap of the fallback *)

(** The greedy loop runs over code units of the class only. *)
Lemma greedy_chr_class P k cs res : forall s p,
  greedy_chr P k p s cs = Some res ->
  exists u t, s = u ++ t /\ Forall (fun c => P c = true) u /\
              k (MState (p + length u) t cs) = Some res.
Proof.
  induction s as [|c s IH]; intros p H; cbn [greedy_chr] in H.
  - exists [], []. simpl. rewrite Nat.add_0_r. auto.
  - assert (Here : k (MState p (c :: s) cs) = Some res ->
                   exists u t, c :: s = u ++ t /\
                               Forall (fun c => P c = true) u /\
                               k (MState (p + length u) t cs) = Some res).
    { intro E. exists [], (c :: s). simpl. rewrite Nat.add_0_r. auto. }
    destruct (P c) eqn:Pc; [|now apply Here].
    apply or_else_some in H. destruct H as [H|[_ H]]; [|now apply Here].
    apply IH in H. destruct H as (u & t & -> & Fu & H).
    exists (c :: u), t. split; [reflexivity|]. split; [now constructor|].
    now replace (p + length (c :: u)) with (S p + length u) by (simpl; lia).
Qed.

Lemma after_lf_app f pre suf :
  after_lf f suf = true -> after_lf f (pre ++ suf) = true.
Proof.
  intro H. induction pre as [|c pre IH]; [assumption|].
  cbn [app after_lf]. rewrite IH. apply orb_true_r.
Qed.

Lemma after_lf_here f pre s :
  f s = true -> after_lf f (pre ++ LF :: s) = true.
Proof.
  intro H. apply after_lf_app. cbn [after_lf].
  rewrite N.eqb_refl, H. reflexivity.
Qed.

Lemma marker_here_colon upper c r :
  letter_i upper c = true -> marker_here upper (c :: COLON :: r) = true.
Proof. intro H. cbn [marker_here]. rewrite H, N.eqb_refl. reflexivity. Qed.

Lemma marker_after_space_app upper u c r :
  Forall (fun x => is_space x = true) u -> letter_i upper c = true ->
  marker_after_space upper (u ++ c :: COLON :: r) = true.
Proof.
  intros Fu Hc. induction Fu as [|x u Hx Fu IH].
  - cbn [app marker_after_space]. rewrite (marker_here_colon _ _ _ Hc).
    reflexivity.
  - cbn [app marker_after_space]. rewrite Hx, IH. apply orb_true_r.
Qed.

(** A match begins with a question marker at the start of the text or
    right after a line feed, white space apart. *)
Lemma qa_regex_question_marker p s res :
  m qa_regex (MState p s []) Some = Some res ->
  (p = 0 /\ marker_after_space UPPER_Q s = true) \/
  (exists s1, s = LF :: s1 /\ marker_after_space UPPER_Q s1 = true).
Proof.
  intro H. rewrite qa_regex_pieces, m_seq, m_alt in H.
  assert (Q : forall p' s',
    m (Star true ws) (MState p' s' [])
      (fun st' => m (lit_i UPPER_Q ;; lit COLON ;; qa_after_q)%re st' Some)
    = Some res ->
    marker_after_space UPPER_Q s' = true).
  { intros p' s' M. unfold ws in M. rewrite m_star_greedy_chr in M.
    apply greedy_chr_class in M. destruct M as (u & t & -> & Fu & M).
    rewrite m_seq in M. unfold lit_i in M. apply m_chr_state in M.
    destruct M as (c & s2 & -> & Hc & M).
    rewrite m_seq in M. unfold lit in M. apply m_chr_state in M.
    destruct M as (d & s3 & -> & Hd & _).
    apply N.eqb_eq in Hd. subst d. now apply marker_after_space_app. }
  apply or_else_some in H. destruct H as [H|[_ H]].
  - left. cbn [m pos] in H. destruct (p =? 0) eqn:E; [|discriminate].
    apply Nat.eqb_eq in E. split; [assumption|].
    apply (Q p s). rewrite <- H. reflexivity.
  - right. unfold lit at 1 in H. apply m_chr_state in H.
    destruct H as (c & s1 & -> & Hc & H). apply N.eqb_eq in Hc. subst c.
    exists s1. split; [reflexivity|]. apply (Q (S p) s1).
    rewrite <- H. reflexivity.
Qed.

Lemma rest_set_cap n v st : rest (set_cap n v st) = rest st.
Proof. reflexivity. Qed.

(** A match runs over an answer marker right after a line feed. *)
Lemma qa_regex_answer_marker st res :
  m qa_regex st Some = Some res -> answer_line (rest st) = true.
Proof.
  intro H. unfold answer_line. rewrite qa_regex_pieces, m_seq in H.
  apply m_sound in H. destruct H as (st1 & (u1 & -> & _) & H).
  apply after_lf_app.
  rewrite m_seq in H. apply m_sound in H.
  destruct H as (st2 & (u2 & -> & _) & H). apply after_lf_app.
  rewrite m_seq in H. apply m_chr in H.
  destruct H as (c & s2 & -> & _ & H). apply (after_lf_app _ [c]).
  rewrite m_seq in H. apply m_chr in H. cbn [rest pos caps] in H.
  destruct H as (d & s3 & -> & _ & H). apply (after_lf_app _ [d]).
  unfold qa_after_q in H. rewrite m_seq in H. apply m_sound in H.
  destruct H as (st4 & (u4 & E4 & _) & H). cbn [rest] in E4. subst s3.
  apply after_lf_app.
  rewrite m_seq, m_group in H. apply m_sound in H.
  destruct H as (st5 & (u5 & -> & _) & H). apply after_lf_app.
  unfold qa_mid in H. rewrite m_seq in H. apply m_sound in H.
  destruct H as (st6 & (u6 & E6 & _) & H). rewrite rest_set_cap in E6.
  rewrite E6. apply after_lf_app.
  unfold qa_mid_k in H. rewrite m_seq in H. unfold lit at 1 in H.
  apply m_chr in H. destruct H as (c1 & s7 & -> & H1 & H).
  rewrite m_seq in H. unfold lit_i in H. apply m_chr in H.
  cbn [rest pos caps] in H. destruct H as (c2 & s8 & -> & H2 & H).
  rewrite m_seq in H. unfold lit in H. apply m_chr in H.
  cbn [rest pos caps] in H. destruct H as (c3 & s9 & -> & H3 & _).
  apply N.eqb_eq in H1, H3. subst c1 c3.
  apply (after_lf_here _ []). now apply marker_here_colon.
Qed.

(** The structured parse finds an entry only in a text with a question
    marker at the start of a line, white space apart, and with an answer
    marker right after a line feed. *)
Lemma structured_match_markers text :
  parseStructuredQA text <> [] ->
  question_line text = true /\ answer_line text = true.
Proof.
  unfold parseStructuredQA. cbn [qa_loop]. intro H.
  destruct (search qa_regex 0 text) as [[i st]|] eqn:E; [|congruence].
  clear H. apply search_some in E. destruct E as (pre & suf & -> & Hi & E).
  split.
  - unfold question_line.
    apply qa_regex_question_marker in E. destruct E as [[E0 E]|(s1 & -> & E)].
    + assert (pre = []) by (destruct pre; [reflexivity|simpl in *; lia]).
      subst pre. cbn [app]. rewrite E. reflexivity.
    + rewrite (after_lf_here _ pre s1 E). apply orb_true_r.
  - apply qa_regex_answer_marker in E. cbn [rest] in E.
    unfold answer_line in *. now apply after_lf_app.
Qed.

(** C8: when no line of the extracted text begins with a question marker,
    or none begins with an answer marker (so, in particular, when the text
    has neither marker), and the text has 301 or more paragraphs, the
    knowledge base is made of the first 300 paragraphs, in order, one entry
    for each: exactly 300 entries. *)
Theorem fallback_cap_300 (t : option jsstring) :
  question_line (extracted_text t) = false \/
  answer_line (extracted_text t) = false ->
  301 <= length (paragraphs (extracted_text t)) ->
  loadPdfKnowledge (Extracted t)
  = map (fun p => Entry (label_of p) p (buildPatternsFromQuestion (label_of p)))
        (firstn 300 (paragraphs (extracted_text t))) /\
  length (loadPdfKnowledge (Extracted t)) = 300.
Proof.
  intros Hm Hp. unfold loadPdfKnowledge.
  assert (N : nonempty (extracted_text t) = true).
  { destruct (extracted_text t); [|reflexivity].
    rewrite paragraphs_nil in Hp. simpl in Hp. lia. }
  rewrite N. cbn [negb].
  assert (S : parseStructuredQA (extracted_text t) = []).
  { destruct (parseStructuredQA (extracted_text t)) as [|e l] eqn:E;
      [reflexivity|].
    destruct (structured_match_markers (extracted_text t)) as [Q A];
      [rewrite E; discriminate|].
    destruct Hm; congruence. }
  rewrite S. cbn [nonempty_list].
  unfold parseUnstructured. rewrite firstn_map. split; [reflexivity|].
  rewrite length_map, length_firstn. lia.
Qed.

Lemma fallback_cap_300_witness :
  loadPdfKnowledge (Extracted (Some sample_paragraphs))
  = map (fun p => Entry (label_of p) p (buildPatternsFromQuestion (label_of p)))
        (firstn 300 (paragraphs (extracted_text (Some sample_paragraphs)))) /\
  length (loadPdfKnowledge (Extracted (Some sample_paragraphs))) = 300.
Proof.
  apply (fallback_cap_300 (Some sample_paragraphs)).
  - left. vm_compute. reflexivity.
  - apply Nat.leb_le. vm_compute. reflexivity.
Defined.
